(** * python-executor: the process supervision engine of [main.py]

    A shallow embedding of the runtime registry ([processes]), the
    supervisor loop ([monitor_script]), the output fan-out
    ([_broadcast_line], [ws_logs]) and the control handlers
    ([start_script], [stop_script], [script_detail], [index]), followed by
    the properties of the specification that concern them.

    Every [with lock:] block of the source is one atomic step here; the
    code between two blocks is where other threads may run. *)

From stdpp Require Import gmap strings list fin_maps.

Open Scope Z_scope.

(** ** Python values *)

(** Output text is a Python [str]: a sequence of code points.  Dictionary
    keys, status words and policy words are ASCII literals in the source and
    are kept as [string]. *)
Definition codepoint := N.
Definition str := list codepoint.

(** [s[i:]] for any integer [i]: a negative index counts from the end and
    both ends are clamped to the string. *)
Definition slice_from {A} (i : Z) (s : list A) : list A :=
  let len := Z.of_nat (length s) in
  let start := if i <? 0 then Z.max (len + i) 0 else Z.min i len in
  drop (Z.to_nat start) s.

(** Object identities. *)
Definition qid := positive.        (* a [queue.Queue] object *)
Definition handle := positive.     (* a [subprocess.Popen] object *)
Definition thread_id := nat.       (* a [threading.Thread] object *)
Definition timestamp := Z.         (* a reading of [time.time()] *)

Inductive exn :=
| KeyError (key : string)
| OSError (errno : Z)              (* FileNotFoundError, PermissionError, ... *)
| UnicodeDecodeError               (* output that is not text *)
| AttributeError (attr : string).

Inductive outcome (A : Type) :=
| Return (a : A)
| Raise (e : exn).
Arguments Return {A} a.
Arguments Raise {A} e.

(** ** [queue.Queue(maxsize)] *)

Record Queue := mkQueue { maxsize : Z; items : list str }.

Definition full (q : Queue) : bool :=
  (0 <? maxsize q) && (maxsize q <=? Z.of_nat (length (items q))).

(** [q.put_nowait(x)]: [None] stands for [queue.Full]. *)
Definition put_nowait (q : Queue) (x : str) : option Queue :=
  if full q then None else Some (mkQueue (maxsize q) (items q ++ [x])).

(** ** Runtime state (lines 38-44)

    [processes[name]] is a dict whose keys may each be absent. *)
Record pinfo := mkPinfo {
  process : option handle;
  thread : option thread_id;
  status : option string;
  start_time : option timestamp;
  output : option str;
  returncode : option Z;
  policy : option string;
  should_stop : option bool;
  subscribers : option (gset qid)
}.

(** The empty dict [{}]. *)
Definition empty_pinfo : pinfo :=
  mkPinfo None None None None None None None None None.

Definition set_process (v : handle) (p : pinfo) : pinfo :=
  mkPinfo (Some v) (thread p) (status p) (start_time p) (output p)
          (returncode p) (policy p) (should_stop p) (subscribers p).
Definition set_thread (v : thread_id) (p : pinfo) : pinfo :=
  mkPinfo (process p) (Some v) (status p) (start_time p) (output p)
          (returncode p) (policy p) (should_stop p) (subscribers p).
Definition set_status (v : string) (p : pinfo) : pinfo :=
  mkPinfo (process p) (thread p) (Some v) (start_time p) (output p)
          (returncode p) (policy p) (should_stop p) (subscribers p).
Definition set_start_time (v : timestamp) (p : pinfo) : pinfo :=
  mkPinfo (process p) (thread p) (status p) (Some v) (output p)
          (returncode p) (policy p) (should_stop p) (subscribers p).
Definition set_output (v : str) (p : pinfo) : pinfo :=
  mkPinfo (process p) (thread p) (status p) (start_time p) (Some v)
          (returncode p) (policy p) (should_stop p) (subscribers p).
Definition set_returncode (v : Z) (p : pinfo) : pinfo :=
  mkPinfo (process p) (thread p) (status p) (start_time p) (output p)
          (Some v) (policy p) (should_stop p) (subscribers p).
Definition set_policy (v : string) (p : pinfo) : pinfo :=
  mkPinfo (process p) (thread p) (status p) (start_time p) (output p)
          (returncode p) (Some v) (should_stop p) (subscribers p).
Definition set_should_stop (v : bool) (p : pinfo) : pinfo :=
  mkPinfo (process p) (thread p) (status p) (start_time p) (output p)
          (returncode p) (policy p) (Some v) (subscribers p).
Definition set_subscribers (v : gset qid) (p : pinfo) : pinfo :=
  mkPinfo (process p) (thread p) (status p) (start_time p) (output p)
          (returncode p) (policy p) (should_stop p) (Some v).

(** What the program does to the outside, in order. *)
Inductive effect :=
| Popen (cmd : list string) (proc : handle)   (* a child process was created *)
| Sleep (seconds : Z)                         (* [time.sleep] *)
| Terminate (proc : handle)                   (* [proc.terminate()] *)
| Kill (proc : handle).                       (* [proc.kill()] *)

(** The shared state: the global [processes] dict, the queue objects that
    subscriber sets refer to, and the log of effects. *)
Record world := mkWorld {
  processes : gmap string pinfo;
  queues : gmap qid Queue;
  effects : list effect
}.

Definition with_processes (f : gmap string pinfo → gmap string pinfo)
    (w : world) : world :=
  mkWorld (f (processes w)) (queues w) (effects w).

Definition emit (e : effect) (w : world) : world :=
  mkWorld (processes w) (queues w) (effects w ++ [e]).

(** [processes[name][field] = v] inside a [with lock:] block.
    [processes[name]] raises [KeyError] when the name has no record. *)
Definition store (name : string) (f : pinfo → pinfo) (w : world)
    : outcome world :=
  match processes w !! name with
  | Some p => Return (with_processes (insert name (f p)) w)
  | None => Raise (KeyError name)
  end.

(** [processes.get(name, {})] *)
Definition get_record (name : string) (w : world) : pinfo :=
  default empty_pinfo (processes w !! name).

(** ** Output tail (line 83) *)

Definition OUTPUT_CAP : Z := 20000.

(** [(processes[name]["output"] + line)[-20000:]] *)
Definition append_output (out line : str) : str :=
  slice_from (- OUTPUT_CAP) (out ++ line).

(** The tail after the lines of a run, in order. *)
Definition append_lines (out : str) (lines : list str) : str :=
  foldl append_output out lines.

(** ** [_broadcast_line] (lines 47-55) *)

(** Lines 48-49: the copy of the subscriber set taken under the lock. *)
Definition snapshot_subscribers (name : string) (w : world) : gset qid :=
  default ∅ (subscribers (get_record name w)).

(** Lines 51-55 for one queue: [put_nowait], and [queue.Full] is swallowed. *)
Definition offer (line : str) (q : qid) (qs : gmap qid Queue)
    : gmap qid Queue :=
  match qs !! q with
  | Some qu =>
      match put_nowait qu line with
      | Some qu' => <[q := qu']> qs
      | None => qs
      end
  | None => qs
  end.

(** Lines 50-55: [for q in subs]. *)
Definition deliver (line : str) (subs : gset qid) (qs : gmap qid Queue)
    : gmap qid Queue :=
  foldr (offer line) qs (elements subs).

Definition _broadcast_line (name : string) (line : str) (w : world) : world :=
  let subs := snapshot_subscribers name w in
  mkWorld (processes w) (deliver line subs (queues w)) (effects w).

(** ** [monitor_script] (lines 58-111)

    The loop is a machine over program points named after source lines.
    What the operating system contributes to a step is an observation.
    The child's output is read as text ([text=True], strict decoding), so
    reading bytes that do not decode raises [UnicodeDecodeError] out of the
    [for] at line 81. *)
Inductive obs :=
| Tau                                   (* nothing is observed *)
| PopenOk (now : timestamp) (proc : handle)
                                        (* lines 68-72 succeed *)
| PopenFails (now : timestamp) (e : exn)
                                        (* [subprocess.Popen] raises *)
| StdoutLine (line : str)               (* the child wrote a line *)
| StdoutUndecodable                     (* bytes that are not text *)
| StdoutEof (code : Z).                 (* stream closed; [proc.wait()] done *)

Inductive pc :=
| L61                                   (* top of [while True] *)
| L63 (stop : bool)                     (* first checkpoint, flag read *)
| L73 (now : timestamp) (proc : handle) (* child created, not yet recorded *)
| L81 (proc : handle)                   (* [for line in proc.stdout] *)
| L84 (proc : handle) (line : str)      (* about to call [_broadcast_line] *)
| L50 (proc : handle) (line : str) (subs : gset qid)
                                        (* snapshot taken, lock released *)
| L91 (code : Z)                        (* exit code recorded *)
| L94 (code : Z) (stop : bool)          (* second checkpoint, flag read *)
| L103                                  (* [time.sleep(2)], failure branch *)
| L109                                  (* [time.sleep(2)], [always] branch *)
| Returned                              (* [break]: the function returned *)
| Raised (e : exn).                     (* an exception left the function *)

(** [processes[name].get("should_stop", False)] under the lock. *)
Definition read_should_stop (name : string) (w : world) : outcome bool :=
  match processes w !! name with
  | Some p => Return (default false (should_stop p))
  | None => Raise (KeyError name)
  end.

(** Lines 73-77. *)
Definition record_launch (now : timestamp) (proc : handle) (p : pinfo)
    : pinfo :=
  let p := set_process proc p in
  let p := set_status "running" p in
  let p := set_start_time now p in
  match output p with                   (* setdefault("output", "") *)
  | Some _ => p
  | None => set_output [] p
  end.

(** Lines 82-83. *)
Definition record_line (name : string) (line : str) (w : world)
    : outcome world :=
  match processes w !! name with
  | Some p =>
      match output p with
      | Some out =>
          Return (with_processes
                    (insert name (set_output (append_output out line) p)) w)
      | None => Raise (KeyError "output")
      end
  | None => Raise (KeyError name)
  end.

(** [policy in ("on-failure", "always")] *)
Definition restarts_on_failure (pol : string) : bool :=
  bool_decide (pol = "on-failure"%string)
  || bool_decide (pol = "always"%string).

(** Lines 99-111, after the second checkpoint found the flag clear. *)
Definition apply_policy (name pol : string) (code : Z) (w : world)
    : pc * world :=
  if bool_decide (code ≠ 0) then
    match store name (set_status "error") w with
    | Raise e => (Raised e, w)
    | Return w' =>
        if restarts_on_failure pol then (L103, w')
        else if bool_decide (pol = "always"%string) then (L109, w')
        else (Returned, w')
    end
  else
    match store name (set_status "stopped") w with
    | Raise e => (Raised e, w)
    | Return w' =>
        if bool_decide (pol = "always"%string) then (L109, w')
        else (Returned, w')
    end.

(** [then_ r k]: continue at [k] unless the locked block raised. *)
Definition then_ (r : outcome world) (k : pc) (w : world) : pc * world :=
  match r with
  | Return w' => (k, w')
  | Raise e => (Raised e, w)
  end.

(** One step of the loop for [name], started with [cmd] and [pol].
    [None]: no step is possible with this observation. *)
Definition monitor_step (name : string) (cmd : list string) (pol : string)
    (o : obs) (at_ : pc) (w : world) : option (pc * world) :=
  match at_, o with
  | L61, Tau =>
      match read_should_stop name w with
      | Return b => Some (L63 b, w)
      | Raise e => Some (Raised e, w)
      end
  | L63 true, Tau =>
      Some (then_ (store name (set_status "stopped") w) Returned w)
  | L63 false, PopenOk now proc => Some (L73 now proc, emit (Popen cmd proc) w)
  | L63 false, PopenFails now e => Some (Raised e, w)
  | L73 now proc, Tau =>
      Some (then_ (store name (record_launch now proc) w) (L81 proc) w)
  | L81 proc, StdoutLine line =>
      Some (then_ (record_line name line w) (L84 proc line) w)
  | L81 proc, StdoutUndecodable => Some (Raised UnicodeDecodeError, w)
  | L81 proc, StdoutEof code =>
      Some (then_ (store name (set_returncode code) w) (L91 code) w)
  | L84 proc line, Tau => Some (L50 proc line (snapshot_subscribers name w), w)
  | L50 proc line subs, Tau =>
      Some (L81 proc,
            mkWorld (processes w) (deliver line subs (queues w)) (effects w))
  | L91 code, Tau =>
      match read_should_stop name w with
      | Return b => Some (L94 code b, w)
      | Raise e => Some (Raised e, w)
      end
  | L94 code true, Tau =>
      Some (then_ (store name (set_status "stopped") w) Returned w)
  | L94 code false, Tau => Some (apply_policy name pol code w)
  | L103, Tau => Some (L61, emit (Sleep 2) w)
  | L109, Tau => Some (L61, emit (Sleep 2) w)
  | _, _ => None
  end.

(** What the loop observes while a child writes [lines] and keeps running:
    each line is read (lines 81-83), then published (line 84: the snapshot,
    then the delivery). *)
Definition stream_obs (lines : list str) : list obs :=
  lines ≫= λ line, [StdoutLine line; Tau; Tau].

(** A thread running [monitor_script(name, cmd, policy)]. *)
Record mthread := mkThread {
  t_name : string;
  t_cmd : list string;
  t_policy : string;
  t_pc : pc
}.

(** The loop run alone on a schedule of observations.  A step that is not
    possible ends the run where it stands. *)
Fixpoint run_monitor (name : string) (cmd : list string) (pol : string)
    (os : list obs) (at_ : pc) (w : world) : pc * world :=
  match os with
  | [] => (at_, w)
  | o :: os' =>
      match monitor_step name cmd pol o at_ w with
      | Some (at', w') => run_monitor name cmd pol os' at' w'
      | None => (at_, w)
      end
  end.

(** ** Pages and API (lines 114-206) *)

(** An entry of [scripts.json], as [load_scripts] returns it: any key may be
    missing from a file written by hand. *)
Record script_meta := mkMeta {
  s_path : option string;
  s_args : option (list string);
  s_policy : option string
}.

(** The [runtime] dict of [script_detail]. *)
Record runtime := mkRuntime {
  r_status : string;
  r_start_time : option timestamp;
  r_running_time : option Z;
  r_returncode : option Z;
  r_output : str
}.

Inductive context :=
| IndexCtx (statuses : gmap string string)
| DetailCtx (name : string) (rt : runtime).

Inductive response :=
| HTMLResponse (body : string) (status_code : Z)
| RedirectResponse (url : string) (status_code : Z)
| TemplateResponse (template : string) (ctx : context).

Definition not_found : response := HTMLResponse "Script not found" 404.

(** [meta.get("policy", "on-failure")] *)
Definition meta_policy (m : script_meta) : string :=
  default "on-failure"%string (s_policy m).

(** The whole machine: the shared state and the supervisor threads started
    so far.  A [threading.Thread] object is its position in the list. *)
Record system := mkSystem {
  sys_world : world;
  sys_threads : list mthread
}.

(** [index], line 121: the record [setdefault] inserts for an unknown name. *)
Definition initial_record (m : script_meta) : pinfo :=
  mkPinfo None None (Some "stopped"%string) None None None
          (Some (meta_policy m)) (Some false) (Some ∅).

(** [d.setdefault(k, v)] on the registry. *)
Definition setdefault (name : string) (p : pinfo) (ps : gmap string pinfo)
    : gmap string pinfo :=
  match ps !! name with
  | Some _ => ps
  | None => <[name := p]> ps
  end.

(** [index] (lines 115-129). *)
Definition index (scripts : gmap string script_meta) (w : world)
    : response * world :=
  let ps :=
    map_fold (λ name meta acc, setdefault name (initial_record meta) acc)
             (processes w) scripts in
  let w' := with_processes (λ _, ps) w in
  let statuses :=
    map_imap (λ name _,
                Some (default "stopped"%string (status (get_record name w'))))
             scripts in
  (TemplateResponse "index.html" (IndexCtx statuses), w').

(** [script_detail] (lines 132-149); [now] is the clock read at line 142. *)
Definition script_detail (scripts : gmap string script_meta) (name : string)
    (now : timestamp) (w : world) : response :=
  match scripts !! name with
  | None => not_found
  | Some _ =>
      let pinfo := get_record name w in
      let running :=
        match start_time pinfo with
        | Some t => if bool_decide (t = 0) then None else Some (now - t)
        | None => None
        end in
      TemplateResponse "detail.html"
        (DetailCtx name
           (mkRuntime (default "stopped"%string (status pinfo))
                      (start_time pinfo) running (returncode pinfo)
                      (slice_from (-2000) (default [] (output pinfo)))))
  end.

(** Lines 161-166: [processes.setdefault(name, {}).update({...})]. *)
Definition reset_record (m : script_meta) (p : pinfo) : pinfo :=
  let subs := default ∅ (subscribers p) in
  set_subscribers subs
    (set_policy (meta_policy m) (set_output [] (set_should_stop false p))).

(** [start_script] (lines 152-174).  The new thread has not run yet when the
    handler returns. *)
Definition start_script (scripts : gmap string script_meta) (name : string)
    (s : system) : outcome response * system :=
  match scripts !! name with
  | None => (Return not_found, s)
  | Some m =>
      let w := sys_world s in
      if bool_decide (status (get_record name w) = Some "running"%string) then
        (Return (RedirectResponse ("/script/" +:+ name) 303), s)
      else
        let w1 :=
          with_processes (insert name (reset_record m (get_record name w))) w in
        match s_path m with
        | None => (Raise (KeyError "path"), mkSystem w1 (sys_threads s))
        | Some path =>
            let args := default [] (s_args m) in
            let pol := meta_policy m in
            let t := length (sys_threads s) in
            let cmd := "python3"%string :: path :: args in
            let th := mkThread name cmd pol L61 in
            match store name (set_thread t) w1 with
            | Raise e => (Raise e, mkSystem w1 (sys_threads s))
            | Return w2 =>
                (Return (RedirectResponse ("/script/" +:+ name) 303),
                 mkSystem w2 (sys_threads s ++ [th]))
            end
        end
  end.

(** [stop_script], lines 179-183: the first locked block.  [inl] is the early
    return; [inr] carries [proc]. *)
Definition stop_mark (name : string) (w : world)
    : (response + option handle) * world :=
  match processes w !! name with
  | None => (inl (RedirectResponse "/" 303), w)
  | Some p =>
      (inr (process p),
       with_processes (insert name (set_should_stop true p)) w)
  end.

(** Lines 184-189.  [alive]: [proc.poll() is None]; [timely]: the child exits
    within the five seconds of [proc.wait(timeout=5)]. *)
Definition stop_signal (proc : option handle) (alive timely : bool)
    (w : world) : world :=
  match proc with
  | Some h =>
      if alive then
        let w := emit (Terminate h) w in
        if timely then w else emit (Kill h) w
      else w
  | None => w
  end.

(** Lines 190-192: the second locked block and the answer. *)
Definition stop_finish (name : string) (w : world) : outcome response * world :=
  match store name (set_status "stopped") w with
  | Return w' => (Return (RedirectResponse ("/script/" +:+ name) 303), w')
  | Raise e => (Raise e, w)
  end.

(** [stop_script] (lines 177-192) with nothing else running in between. *)
Definition stop_script (name : string) (alive timely : bool) (w : world)
    : outcome response * world :=
  match stop_mark name w with
  | (inl r, w1) => (Return r, w1)
  | (inr proc, w1) => stop_finish name (stop_signal proc alive timely w1)
  end.

(** ** [ws_logs] (lines 210-232) *)

Definition SUBSCRIBER_CAP : Z := 1000.

(** Lines 214-218: the new queue, its registration and the tail, in one
    locked block. *)
Definition ws_subscribe (name : string) (w : world) : qid * str * world :=
  let q := fresh (dom (queues w)) in
  let p := get_record name w in                (* setdefault(name, {}) *)
  let subs := default ∅ (subscribers p) in     (* setdefault(.., set()) *)
  let p' := set_subscribers ({[q]} ∪ subs) p in
  let tail := slice_from (-2000) (default [] (output p')) in
  (q, tail,
   mkWorld (<[name := p']> (processes w))
           (<[q := mkQueue SUBSCRIBER_CAP []]> (queues w))
           (effects w)).

(** Lines 219-220: what is sent on attachment. *)
Definition ws_greeting (tail : str) : list str :=
  match tail with
  | [] => []
  | _ => [tail]
  end.

(** Line 224, [websocket.loop.run_in_executor(None, q.get)]: one turn of the
    pump.  The attribute [websocket.loop] is evaluated first, and the
    [WebSocket] class of starlette has no such attribute: the turn raises
    [AttributeError] before [q.get] is reached, so nothing is taken off the
    queue and nothing is sent. *)
Definition ws_pump (q : qid) (w : world) : exn := AttributeError "loop".

(** Lines 229-232: the [finally] block. *)
Definition ws_unsubscribe (name : string) (q : qid) (w : world) : world :=
  match processes w !! name with
  | Some p =>
      match subscribers p with
      | Some subs =>
          if bool_decide (q ∈ subs)
          then with_processes
                 (insert name (set_subscribers (subs ∖ {[q]}) p)) w
          else w
      | None => w
      end
  | None => w
  end.

(** [ws_logs] (lines 210-232) on a connection that is accepted and takes
    the initial text, with nothing else running in between: the
    subscription, the initial text, the first turn of the pump, which
    raises, and the [finally] block on the way out ([except
    WebSocketDisconnect] does not catch the exception).  The result is the
    exception that leaves the handler, what went down the socket, and the
    state. *)
Definition ws_logs (name : string) (w : world) : exn * list str * world :=
  let sub := ws_subscribe name w in
  let q := sub.1.1 in
  let sent := ws_greeting sub.1.2 in
  (ws_pump q sub.2, sent, ws_unsubscribe name q sub.2).

(** ** Interleavings

    The handlers are coroutines of one event loop and contain no [await]
    between their locked blocks, so handlers do not interleave with each
    other; supervisor threads interleave with everything, one locked block
    at a time.  [stop_script] is therefore two actions, with the loop free
    to run between its two locked blocks.  The two blocks of [start_script]
    are one action: the second writes only the [thread] key, which no loop
    step reads or writes, and the new thread is started after it, so a loop
    step between the two blocks could as well come after both. *)
Inductive action :=
| AIndex
| AStart (name : string)
| AStopMark (name : string) (alive timely : bool)   (* lines 179-189 *)
| AStopFinish (name : string)                       (* lines 190-191 *)
| ASubscribe (name : string)
| APump (q : qid)
| AUnsubscribe (name : string) (q : qid)
| AStep (t : thread_id) (o : obs).                  (* a step of thread [t] *)

Definition with_pc (at_ : pc) (th : mthread) : mthread :=
  mkThread (t_name th) (t_cmd th) (t_policy th) at_.

Definition step_thread (t : thread_id) (o : obs) (s : system) : system :=
  match sys_threads s !! t with
  | Some th =>
      match monitor_step (t_name th) (t_cmd th) (t_policy th) o (t_pc th)
                         (sys_world s) with
      | Some (at', w') => mkSystem w' (<[t := with_pc at' th]> (sys_threads s))
      | None => s
      end
  | None => s
  end.

Definition exec (scripts : gmap string script_meta) (a : action) (s : system)
    : system :=
  let w := sys_world s in
  let ths := sys_threads s in
  match a with
  | AIndex => mkSystem (index scripts w).2 ths
  | AStart name => (start_script scripts name s).2
  | AStopMark name alive timely =>
      match stop_mark name w with
      | (inl _, w1) => mkSystem w1 ths
      | (inr proc, w1) => mkSystem (stop_signal proc alive timely w1) ths
      end
  | AStopFinish name => mkSystem (stop_finish name w).2 ths
  | ASubscribe name => mkSystem (ws_subscribe name w).2 ths
  | APump q => s                (* the turn raises: see [ws_pump] *)
  | AUnsubscribe name q => mkSystem (ws_unsubscribe name q w) ths
  | AStep t o => step_thread t o s
  end.

Definition exec_all (scripts : gmap string script_meta) (acts : list action)
    (s : system) : system :=
  foldl (λ s a, exec scripts a s) s acts.

(** Reading a field of [processes.get(name, {})]. *)
Definition field {A} (f : pinfo → option A) (name : string) (w : world)
    : option A :=
  f (get_record name w).

(** What one attempt does to a queue: the line is enqueued, or, on a full
    queue, nothing changes. *)
Definition offered (line : str) (qu : Queue) : Queue :=
  default qu (put_nowait qu line).

(** ** Writes and the fields they keep

    A relation [R] between the value of a field before and after a write
    says what the write may do to it: [eq] for a field the write leaves
    alone, a weaker relation for a flag that only moves one way. *)
Section Writes.
Context {A : Type} (g : pinfo → option A) (R : relation (option A)).

(** Every record that [f] may be applied to keeps [g] within [R]. *)
Definition respects (f : pinfo → pinfo) : Prop := ∀ p, R (g p) (g (f p)).

(** The four writes of the loop: lines 65/96/101/107, 74-77, 83 and 89. *)
Definition loop_respects : Prop :=
  (∀ v, respects (set_status v))
  ∧ (∀ now proc, respects (record_launch now proc))
  ∧ (∀ v, respects (set_output v))
  ∧ (∀ v, respects (set_returncode v)).

(** What it takes for action [a] to keep field [g] of record [n] within
    [R]: each write the action makes into that record respects it. *)
Definition action_respects (n : string) (a : action) : Prop :=
  match a with
  | AIndex => ∀ m, R (g empty_pinfo) (g (initial_record m))
  | AStart name =>
      name = n →
      (∀ m, respects (reset_record m)) ∧ (∀ t, respects (set_thread t))
  | AStopMark name _ _ => name = n → respects (set_should_stop true)
  | AStopFinish name => name = n → respects (set_status "stopped")
  | ASubscribe name => name = n → ∀ v, respects (set_subscribers v)
  | AUnsubscribe name _ => name = n → ∀ v, respects (set_subscribers v)
  | APump _ => True
  | AStep _ _ => loop_respects
  end.
End Writes.

(** ** Sample states *)

(** A registry entry for ["job"], as [index] creates it. *)
Definition job_meta (pol : string) : script_meta :=
  mkMeta (Some "job.py"%string) None (Some pol).

Definition job_scripts (pol : string) : gmap string script_meta :=
  {[ "job"%string := job_meta pol ]}.

Definition job_world (pol : string) : world :=
  mkWorld {[ "job"%string := initial_record (job_meta pol) ]} ∅ [].

Definition job_cmd : list string := ["python3"; "job.py"]%string.

(** A state in which nothing is known: no script, no record. *)
Definition empty_world : world := mkWorld ∅ ∅ [].

(** ["job"] after a stop request, with one supervisor thread still at the top
    of its loop. *)
Definition stop_requested_system : system :=
  mkSystem
    (with_processes
       (insert "job"%string
               (set_should_stop true (initial_record (job_meta "always"))))
       (job_world "always"))
    [mkThread "job" job_cmd "always" L61].

(** The stop flag may be raised by a write but not lowered. *)
Definition stays_set : relation (option bool) :=
  λ before after, before = Some true → after = Some true.

(** ["job"] while its child runs: launched at time 100 as process 1. *)
Definition running_world : world :=
  with_processes
    (insert "job"%string
            (record_launch 100 1%positive (initial_record (job_meta "always"))))
    (job_world "always").

(** Steps of supervisor threads, as opposed to the handlers. *)
Definition is_loop_step (a : action) : bool :=
  match a with
  | AStep _ _ => true
  | _ => false
  end.

(** ["job"] with 3000 characters of output stored. *)
Definition long_output_world : world :=
  with_processes
    (insert "job"%string
            (set_output (replicate 3000 65%N)
                        (initial_record (job_meta "always"))))
    (job_world "always").

(** ["job"] streaming: one supervisor thread reading the output of child 1. *)
Definition streaming_system : system :=
  mkSystem running_world [mkThread "job" job_cmd "always" (L81 1%positive)].

Definition line_A : str := [65%N; 10%N].

(** ** [ws_status] (lines 235-249) *)

(** Lines 240-244: the snapshot sent on each turn of the loop. *)
Definition ws_status_snapshot (scripts : gmap string script_meta) (w : world)
    : gmap string string :=
  map_imap (λ name _,
              Some (default "stopped"%string (status (get_record name w))))
           scripts.

(** ** Everything the program does to a record or a queue

    [rewrites Q before after]: the ways in which one action changes what
    the registry holds under one name, [Q] being the queue objects that
    exist afterwards.  One constructor per write of the source. *)
Inductive rewrites (Q : gset qid) : option pinfo → option pinfo → Prop :=
| rw_none o : rewrites Q o o
| rw_index m :                                       (* line 121 *)
    rewrites Q None (Some (initial_record m))
| rw_reset o m :                                     (* lines 161-166 *)
    rewrites Q o (Some (reset_record m (default empty_pinfo o)))
| rw_start o m t :                                   (* lines 161-172 *)
    rewrites Q o
      (Some (set_thread t (reset_record m (default empty_pinfo o))))
| rw_stop_mark p :                                   (* line 182 *)
    rewrites Q (Some p) (Some (set_should_stop true p))
| rw_stopped p :                                     (* 65, 96, 107, 191 *)
    rewrites Q (Some p) (Some (set_status "stopped" p))
| rw_error p :                                       (* line 101 *)
    rewrites Q (Some p) (Some (set_status "error" p))
| rw_launch p now proc :                             (* lines 74-77 *)
    rewrites Q (Some p) (Some (record_launch now proc p))
| rw_line p out line :                               (* line 83 *)
    output p = Some out →
    rewrites Q (Some p) (Some (set_output (append_output out line) p))
| rw_exit p code :                                   (* line 89 *)
    rewrites Q (Some p) (Some (set_returncode code p))
| rw_subscribe o q :                                 (* line 216 *)
    q ∈ Q →
    rewrites Q o
      (Some (set_subscribers
               ({[q]} ∪ default ∅ (subscribers (default empty_pinfo o)))
               (default empty_pinfo o)))
| rw_unsubscribe p subs q :                          (* line 232 *)
    subscribers p = Some subs →
    rewrites Q (Some p) (Some (set_subscribers (subs ∖ {[q]}) p)).

(** The same for one queue object. *)
Inductive requeues : option Queue → option Queue → Prop :=
| rq_none o : requeues o o
| rq_new :                                           (* line 214 *)
    requeues None (Some (mkQueue SUBSCRIBER_CAP []))
| rq_offer qu line :                                 (* lines 51-55 *)
    requeues (Some qu) (Some (offered line qu)).

(** ** Invariants of the shared state *)

(** The three words the code ever stores as a status. *)
Definition status_word (v : string) : Prop :=
  v = "running"%string ∨ v = "stopped"%string ∨ v = "error"%string.

(** What holds of every record the program has made. *)
Record record_ok (p : pinfo) : Prop := mkRecordOk {
  ok_status : ∀ v, status p = Some v → status_word v;
  ok_running :
    status p = Some "running"%string →
    is_Some (start_time p) ∧ is_Some (process p);
  ok_output :
    ∀ out, output p = Some out → Z.of_nat (length out) ≤ OUTPUT_CAP
}.

(** What holds of every queue the program has made. *)
Definition queue_ok (qu : Queue) : Prop :=
  maxsize qu = SUBSCRIBER_CAP
  ∧ Z.of_nat (length (items qu)) ≤ SUBSCRIBER_CAP.

Definition world_ok (w : world) : Prop :=
  (∀ n p, processes w !! n = Some p → record_ok p)
  ∧ (∀ q qu, queues w !! q = Some qu → queue_ok qu)
  ∧ (∀ n p subs,
       processes w !! n = Some p → subscribers p = Some subs →
       subs ⊆ dom (queues w)).

(** Number of child processes created so far. *)
Fixpoint launches (es : list effect) : nat :=
  match es with
  | [] => 0
  | Popen _ _ :: es' => S (launches es')
  | _ :: es' => launches es'
  end.

(** Whether action [a], taken in state [s], is thread [t] creating a child:
    a step of [t] from line 63, the flag read as clear, in which
    [subprocess.Popen] returns. *)
Definition launch_by (t : thread_id) (a : action) (s : system) : bool :=
  match a with
  | AStep t' (PopenOk _ _) =>
      bool_decide (t' = t)
      && match t_pc <$> sys_threads s !! t' with
         | Some (L63 false) => true
         | _ => false
         end
  | _ => false
  end.

(** Number of children that thread [t] creates in the course of [acts]. *)
Fixpoint launches_by (t : thread_id) (scripts : gmap string script_meta)
    (acts : list action) (s : system) : nat :=
  match acts with
  | [] => 0
  | a :: rest =>
      ((if launch_by t a s then 1 else 0)
       + launches_by t scripts rest (exec scripts a s))%nat
  end.

(** Program points at which the loop holds a child whose output it reads. *)
Definition streaming (at_ : pc) : bool :=
  match at_ with
  | L81 _ | L84 _ _ | L50 _ _ _ => true
  | _ => false
  end.

(** The service from its start: nothing in the registry, no queue, no
    thread.  A run is a sequence of actions, each with the content of
    [scripts.json] at that moment. *)
Definition initial_system : system := mkSystem empty_world [].

Definition run_service (steps : list (gmap string script_meta * action))
    (s : system) : system :=
  foldl (λ s step, exec step.1 step.2 s) s steps.

(** The exception that action [a], taken in state [s], makes thread [t]
    meet from outside the registry: the one [subprocess.Popen] raises when
    [t] stands at its launch (line 70), and the decode error when [t]
    stands at the read of its child's output (line 81). *)
Definition observed_failure (t : thread_id) (a : action) (s : system)
    : list exn :=
  match a with
  | AStep t' o =>
      if bool_decide (t' = t) then
        match t_pc <$> sys_threads s !! t, o with
        | Some (L63 false), PopenFails _ e => [e]
        | Some (L81 _), StdoutUndecodable => [UnicodeDecodeError]
        | _, _ => []
        end
      else []
  | _ => []
  end.

(** Those that thread [t] met in the course of a run. *)
Fixpoint observed_failures (t : thread_id)
    (steps : list (gmap string script_meta * action)) (s : system)
    : list exn :=
  match steps with
  | [] => []
  | step :: rest =>
      observed_failure t step.2 s
      ++ observed_failures t rest (exec step.1 step.2 s)
  end.

(** The exit code that an action records for [n], if any: the step in which
    a loop supervising [n] reads the end of its child's output and stores
    the child's exit status (lines 86-89). *)
Definition recorded_exit (n : string) (a : action) (s : system) : option Z :=
  match a with
  | AStep t (StdoutEof code) =>
      match sys_threads s !! t with
      | Some th =>
          match t_pc th with
          | L81 _ => if bool_decide (t_name th = n) then Some code else None
          | _ => None
          end
      | None => None
      end
  | _ => None
  end.

(** The exit codes recorded for [n] in the course of a run, oldest first. *)
Fixpoint exit_log (n : string)
    (steps : list (gmap string script_meta * action)) (s : system) : list Z :=
  match steps with
  | [] => []
  | step :: rest =>
      option_list (recorded_exit n step.2 s)
      ++ exit_log n rest (exec step.1 step.2 s)
  end.

(** A supervisor thread in good standing: if an exception ended it, the
    exception is one of [F]; its record exists, and has an output while the
    thread reads a child. *)
Definition thread_ok (F : list exn) (w : world) (th : mthread) : Prop :=
  (∀ e, t_pc th = Raised e → e ∈ F)
  ∧ ∃ p, processes w !! t_name th = Some p
         ∧ (streaming (t_pc th) = true → is_Some (output p)).

Definition system_ok (F : thread_id → list exn) (s : system) : Prop :=
  ∀ t th, sys_threads s !! t = Some th → thread_ok (F t) (sys_world s) th.

(** A value that, once present, is not changed. *)
Definition kept_once_set {A} : relation (option A) :=
  λ before after, is_Some before → after = before.

(** Steps in which a loop reads a line of its child. *)
Definition is_line_step (a : action) : bool :=
  match a with
  | AStep _ (StdoutLine _) => true
  | _ => false
  end.

(** ** Whole cycles of the loop *)

(** What the loop observes from the top of the loop to its decision, for a
    child that writes [lines] and exits with [code]: checkpoint, launch,
    record, the lines one by one, end of stream, checkpoint, decision. *)
Definition cycle (now : timestamp) (proc : handle) (lines : list str)
    (code : Z) : list obs :=
  [Tau; PopenOk now proc; Tau] ++ stream_obs lines
  ++ [StdoutEof code; Tau; Tau].

(** A child as the loop sees it: launch time, handle, the lines it writes
    and its exit code. *)
Definition child : Type := timestamp * handle * list str * Z.

(** The same for a series of children, each followed by the pause that
    precedes the next launch. *)
Definition crash_loop (children : list child) : list obs :=
  children ≫= λ c, cycle c.1.1.1 c.1.1.2 c.1.2 c.2 ++ [Tau].

(** What the series does to the outside. *)
Definition crash_loop_effects (cmd : list string) (children : list child)
    : list effect :=
  children ≫= λ c, [Popen cmd c.1.1.2; Sleep 2].

(** Everything the series writes, in order. *)
Definition crash_loop_lines (children : list child) : list str :=
  children ≫= λ c, c.1.2.

(** Program points from which the loop is bound to return at its next
    step. *)
Definition returning (at_ : pc) : bool :=
  match at_ with
  | Returned | L63 true | L94 _ true => true
  | _ => false
  end.

(** ** [add_script] (lines 200-206)

    The dict that [add_script] hands to [save_scripts], given the one
    [load_scripts] returned.  [basename] stands for [Path(path).name] and
    [split] for [str.split()], both of the Python library. *)
Definition add_script (basename : string → string)
    (split : string → list string) (path args pol : string)
    (scripts : gmap string script_meta) : gmap string script_meta :=
  let name := basename path in
  let args := if bool_decide (args = ""%string) then [] else split args in
  <[name := mkMeta (Some path) (Some args) (Some pol)]> scripts.

(* ================================================================== *)
(** * Properties *)

(** ** Registry reads and writes *)

Lemma store_Some name f w p :
  processes w !! name = Some p →
  store name f w = Return (with_processes (insert name (f p)) w).
Proof. intros H. unfold store. by rewrite H. Qed.

Lemma field_store_eq {A} (g : pinfo → option A) name p w :
  field g name (with_processes (insert name p) w) = g p.
Proof. unfold field, get_record; simpl. by rewrite lookup_insert_eq. Qed.

Lemma field_store_ne {A} (g : pinfo → option A) name n p w :
  name ≠ n →
  field g n (with_processes (insert name p) w) = field g n w.
Proof.
  intros Hne. unfold field, get_record; simpl. by rewrite lookup_insert_ne.
Qed.

Lemma get_record_Some name w p :
  processes w !! name = Some p → get_record name w = p.
Proof. intros H. unfold get_record. by rewrite H. Qed.

(** ** Slicing *)

Section Slices.
Context {A : Type}.
Implicit Types s t : list A.

Lemma slice_from_neg s (n : Z) :
  0 < n → slice_from (- n) s = drop (length s - Z.to_nat n)%nat s.
Proof.
  intros Hn. unfold slice_from.
  destruct (Z.ltb_spec (- n) 0) as [_|?]; [|lia].
  f_equal. lia.
Qed.

Lemma slice_from_neg_length s (n : Z) :
  0 < n →
  Z.of_nat (length (slice_from (- n) s)) = Z.min (Z.of_nat (length s)) n.
Proof.
  intros Hn. rewrite slice_from_neg by done. rewrite length_drop. lia.
Qed.

Lemma slice_from_neg_suffix s (n : Z) : slice_from n s `suffix_of` s.
Proof. apply suffix_drop. Qed.

Lemma slice_from_neg_short s (n : Z) :
  0 < n → Z.of_nat (length s) ≤ n → slice_from (- n) s = s.
Proof.
  intros Hn Hs. rewrite slice_from_neg by done.
  replace (length s - Z.to_nat n)%nat with 0%nat by lia. done.
Qed.

(** Cutting the accumulated text before appending loses nothing that the
    cut after appending would have kept. *)
Lemma slice_from_neg_app s t (n : Z) :
  0 < n →
  slice_from (- n) (slice_from (- n) s ++ t) = slice_from (- n) (s ++ t).
Proof.
  intros Hn. rewrite !slice_from_neg by done.
  set (k := Z.to_nat n). set (d := (length s - k)%nat).
  rewrite length_app, length_drop.
  replace (length (s ++ t) - k)%nat
    with (d + (length s - d + length t - k))%nat
    by (rewrite length_app; lia).
  rewrite <- drop_drop. f_equal.
  rewrite drop_app. replace (d - length s)%nat with 0%nat by lia. done.
Qed.
End Slices.

(** ** The output tail *)

Lemma append_lines_app out ls1 ls2 :
  append_lines out (ls1 ++ ls2) = append_lines (append_lines out ls1) ls2.
Proof. apply foldl_app. Qed.

(** The stored tail is the cut of everything written so far: folding the
    per-line update over a run agrees with one cut at the end. *)
Lemma append_lines_slice (out : str) (lines : list str) :
  append_lines (slice_from (- OUTPUT_CAP) out) lines
  = slice_from (- OUTPUT_CAP) (out ++ concat lines).
Proof.
  revert out. induction lines as [|l ls IH]; intros out; simpl.
  - by rewrite app_nil_r.
  - change (append_lines (append_output (slice_from (- OUTPUT_CAP) out) l) ls
            = slice_from (- OUTPUT_CAP) (out ++ l ++ concat ls)).
    unfold append_output. rewrite slice_from_neg_app by done.
    rewrite IH. by rewrite <- app_assoc.
Qed.

(** The pure content of line 83 over a whole run. *)
Lemma append_lines_last (out : str) (lines : list str) :
  Z.of_nat (length out) ≤ OUTPUT_CAP →
  let total := out ++ concat lines in
  let tail := append_lines out lines in
  tail = slice_from (- OUTPUT_CAP) total
  ∧ Z.of_nat (length tail) = Z.min (Z.of_nat (length total)) OUTPUT_CAP
  ∧ tail `suffix_of` total.
Proof.
  intros Hout total tail.
  assert (Htail : tail = slice_from (- OUTPUT_CAP) total).
  { unfold tail, total. rewrite <- append_lines_slice.
    by rewrite slice_from_neg_short. }
  split_and!; [done| |].
  - rewrite Htail. by apply slice_from_neg_length.
  - rewrite Htail. apply slice_from_neg_suffix.
Qed.

(** Streaming [lines] through the loop leaves [append_lines] of them in the
    record, and the loop back at line 81. *)
Lemma streaming_stores_tail name cmd pol proc lines w p out :
  processes w !! name = Some p →
  output p = Some out →
  ∃ w',
    run_monitor name cmd pol (stream_obs lines) (L81 proc) w = (L81 proc, w')
    ∧ field output name w' = Some (append_lines out lines)
    ∧ effects w' = effects w.
Proof.
  revert w p out. induction lines as [|l ls IH]; intros w p out Hp Hout.
  - exists w. split_and!; [done| |done].
    unfold field. by rewrite (get_record_Some _ _ _ Hp).
  - set (p1 := set_output (append_output out l) p).
    set (w1 := with_processes (insert name p1) w).
    set (w2 := mkWorld (processes w1)
                       (deliver l (snapshot_subscribers name w1) (queues w1))
                       (effects w1)).
    destruct (IH w2 p1 (append_output out l)) as (w' & Hrun & Hfield & Heff).
    { unfold w2, w1; simpl. by rewrite lookup_insert_eq. }
    { done. }
    exists w'. split_and!; [|done|done].
    change (stream_obs (l :: ls))
      with (StdoutLine l :: Tau :: Tau :: stream_obs ls).
    cbn [run_monitor monitor_step]. unfold record_line. rewrite Hp, Hout.
    cbn [then_ run_monitor monitor_step]. exact Hrun.
Qed.

(** C6.  While a child writes, whatever the sequence of lines, the stored
    output stays within 20000 characters and is the last 20000 characters
    of everything written so far (all of it while that is shorter): the
    loop, streaming [lines] into a record whose output [out] is within the
    cap (it is empty after [start_script]), leaves the text
    [(out + lines)[-20000:]], of length [min (total length) 20000] (so 20000
    for 50000 characters written), a suffix of the total: what is cut is
    the oldest end. *)
Theorem output_tail_is_last_20000 (name : string) (cmd : list string)
    (pol : string) (proc : handle) (lines : list str) (w : world)
    (p : pinfo) (out : str) :
  processes w !! name = Some p →
  output p = Some out →
  Z.of_nat (length out) ≤ 20000 →
  let total := out ++ concat lines in
  ∃ w' tail,
    run_monitor name cmd pol (stream_obs lines) (L81 proc) w = (L81 proc, w')
    ∧ field output name w' = Some tail
    ∧ tail = slice_from (-20000) total
    ∧ Z.of_nat (length tail) = Z.min (Z.of_nat (length total)) 20000
    ∧ Z.of_nat (length tail) ≤ 20000
    ∧ tail `suffix_of` total.
Proof.
  intros Hp Hout Hlen total.
  destruct (streaming_stores_tail name cmd pol proc lines w p out Hp Hout)
    as (w' & Hrun & Hfield & _).
  destruct (append_lines_last out lines Hlen) as (Htail & Hmin & Hsuf).
  exists w', (append_lines out lines). unfold OUTPUT_CAP in *.
  split_and!; try done. fold total in Hmin. lia.
Qed.

Lemma output_tail_is_last_20000_witness :
  ∃ w',
    run_monitor "job" job_cmd "always" (stream_obs [line_A; line_A])
                (L81 1%positive) running_world = (L81 1%positive, w')
    ∧ field output "job" w' = Some (line_A ++ line_A).
Proof.
  destruct (output_tail_is_last_20000 "job" job_cmd "always" 1%positive
              [line_A; line_A] running_world
              (record_launch 100 1%positive
                             (initial_record (job_meta "always"))) [])
    as (w' & tail & Hrun & Hfield & Htail & _);
    [reflexivity|reflexivity|simpl; lia|].
  exists w'. split; [exact Hrun|]. rewrite Hfield, Htail. reflexivity.
Defined.

(** ** The broadcaster *)

Lemma offered_full line qu : full qu = true → offered line qu = qu.
Proof. intros H. unfold offered, put_nowait. by rewrite H. Qed.

Lemma offered_room line qu :
  full qu = false →
  offered line qu = mkQueue (maxsize qu) (items qu ++ [line]).
Proof. intros H. unfold offered, put_nowait. by rewrite H. Qed.

Lemma offer_lookup line a (qs : gmap qid Queue) q :
  offer line a qs !! q
  = if decide (q = a) then offered line <$> qs !! q else qs !! q.
Proof.
  unfold offer, offered. destruct (decide (q = a)) as [->|Hne].
  - destruct (qs !! a) as [qu|] eqn:Hq; simpl; [|by rewrite Hq].
    destruct (put_nowait qu line) as [qu'|]; simpl.
    + by rewrite lookup_insert_eq.
    + by rewrite Hq.
  - destruct (qs !! a) as [qu|]; [|done].
    destruct (put_nowait qu line); [|done].
    by rewrite lookup_insert_ne.
Qed.

Lemma foldr_offer_lookup line (l : list qid) (qs : gmap qid Queue) q :
  NoDup l →
  foldr (offer line) qs l !! q
  = if decide (q ∈ l) then offered line <$> qs !! q else qs !! q.
Proof.
  induction 1 as [|a l Ha _ IH]; simpl.
  - destruct (decide (q ∈ [])) as [Hin|]; [|done].
    by apply elem_of_nil in Hin.
  - rewrite offer_lookup, IH.
    destruct (decide (q = a)) as [->|Hne].
    + destruct (decide (a ∈ l)); [done|].
      destruct (decide (a ∈ a :: l)) as [|Hn]; [done|].
      exfalso. apply Hn. left.
    + destruct (decide (q ∈ l)) as [Hin|Hnin].
      * destruct (decide (q ∈ a :: l)) as [|Hn]; [done|].
        exfalso. apply Hn. by right.
      * destruct (decide (q ∈ a :: l)) as [Hin|]; [|done].
        apply elem_of_cons in Hin as [?|?]; done.
Qed.

Lemma deliver_lookup line (subs : gset qid) (qs : gmap qid Queue) q :
  deliver line subs qs !! q
  = if decide (q ∈ subs) then offered line <$> qs !! q else qs !! q.
Proof.
  unfold deliver. rewrite foldr_offer_lookup by apply NoDup_elements.
  destruct (decide (q ∈ elements subs)) as [Hin|Hnin];
    destruct (decide (q ∈ subs)) as [Hs|Hns]; try done.
  - exfalso. apply Hns. by apply elem_of_elements.
  - exfalso. apply Hnin. by apply elem_of_elements.
Qed.

Lemma ws_unsubscribe_subscribers name q w :
  snapshot_subscribers name (ws_unsubscribe name q w)
  = snapshot_subscribers name w ∖ {[q]}
  ∧ queues (ws_unsubscribe name q w) = queues w.
Proof.
  unfold ws_unsubscribe, snapshot_subscribers, get_record.
  destruct (processes w !! name) as [p|] eqn:Hp; simpl.
  2:{ rewrite Hp. simpl. by rewrite empty_difference_L. }
  destruct (subscribers p) as [subs|] eqn:Hsubs; simpl.
  2:{ rewrite Hp. simpl. rewrite Hsubs. simpl. by rewrite empty_difference_L. }
  case_bool_decide as Hin; simpl.
  - by rewrite lookup_insert_eq.
  - rewrite Hp. simpl. rewrite Hsubs. simpl. split; [|done].
    symmetry. apply difference_disjoint_L. by apply disjoint_singleton_r.
Qed.

Lemma ws_unsubscribe_absent name q w :
  q ∉ snapshot_subscribers name w → ws_unsubscribe name q w = w.
Proof.
  unfold ws_unsubscribe, snapshot_subscribers, get_record.
  destruct (processes w !! name) as [p|]; simpl; [|done].
  destruct (subscribers p) as [subs|]; simpl; [|done].
  intros Hq. by rewrite bool_decide_eq_false_2.
Qed.

(** C7.  [_broadcast_line(name, line)] always completes and touches nothing
    but the queues.  The recipients are the queues in the subscriber set
    that the registry holds for [name] at the call (none if the name has no
    record or no set): each of them gets the line appended if it has room
    and is left as it is if it is full, and every other queue is left as it
    is.  So a full queue costs its own subscriber the line and nobody else
    anything.  A queue that [ws_logs] has just registered is a recipient,
    one that it has unregistered is not.  Inside [monitor_script] the
    delivery goes to the set copied at line 49, whatever happened to the
    registry between the copy and the delivery. *)
Theorem broadcast_delivers_to_snapshot (name : string) (line : str)
    (w : world) (q : qid) :
  let subs := default ∅ (processes w !! name ≫= subscribers) in
  let offered_in (qs : gmap qid Queue) :=
    match qs !! q with
    | Some qu =>
        if bool_decide (q ∈ subs) then
          if bool_decide (0 < maxsize qu
                          ∧ maxsize qu ≤ Z.of_nat (length (items qu)))
          then Some qu
          else Some (mkQueue (maxsize qu) (items qu ++ [line]))
        else Some qu
    | None => None
    end in
  let w' := _broadcast_line name line w in
  processes w' = processes w
  ∧ effects w' = effects w
  ∧ queues w' !! q = offered_in (queues w)
  ∧ (let sub := ws_subscribe name w in
     queues (_broadcast_line name line sub.2) !! sub.1.1
     = Some (mkQueue 1000 [line]))
  ∧ queues (_broadcast_line name line (ws_unsubscribe name q w)) !! q
    = queues w !! q
  ∧ ∀ cmd pol proc (later : world),
      monitor_step name cmd pol Tau (L84 proc line) w
        = Some (L50 proc line subs, w)
      ∧ ∃ later',
          monitor_step name cmd pol Tau (L50 proc line subs) later
            = Some (L81 proc, later')
          ∧ processes later' = processes later
          ∧ effects later' = effects later
          ∧ queues later' !! q = offered_in (queues later).
Proof.
  intros subs offered_in w'.
  assert (Hsubs : snapshot_subscribers name w = subs).
  { unfold snapshot_subscribers, get_record, subs.
    by destruct (processes w !! name). }
  assert (Hfull : ∀ qu,
             full qu
             = bool_decide (0 < maxsize qu
                            ∧ maxsize qu ≤ Z.of_nat (length (items qu)))).
  { intros qu. unfold full. apply eq_true_iff_eq.
    rewrite andb_true_iff, bool_decide_eq_true, Z.ltb_lt, Z.leb_le. done. }
  assert (Hdeliver : ∀ qs, deliver line subs qs !! q = offered_in qs).
  { intros qs. rewrite deliver_lookup. unfold offered_in.
    destruct (qs !! q) as [qu|] eqn:Hq; simpl.
    - case_bool_decide; destruct (decide (q ∈ subs)); try done; simpl.
      rewrite <- Hfull. destruct (full qu) eqn:Hf.
      + by rewrite offered_full.
      + by rewrite offered_room.
    - by destruct (decide (q ∈ subs)). }
  split_and!; [done|done| | | |].
  - unfold w', _broadcast_line; simpl. rewrite Hsubs. apply Hdeliver.
  - simpl. rewrite deliver_lookup.
    unfold snapshot_subscribers at 1, get_record; simpl.
    destruct (decide (fresh (dom (queues w)) ∈ _)) as [_|Hn].
    + by rewrite lookup_insert_eq.
    + exfalso. apply Hn. rewrite lookup_insert_eq. simpl.
      by apply elem_of_union_l, elem_of_singleton.
  - destruct (ws_unsubscribe_subscribers name q w) as [Hs Hq].
    simpl. rewrite deliver_lookup, Hq, Hs.
    destruct (decide (q ∈ _)) as [Hin|]; [|done].
    apply elem_of_difference in Hin as [_ Hn].
    exfalso. apply Hn. by apply elem_of_singleton.
  - intros cmd pol proc later. split; [simpl; by rewrite Hsubs|].
    eexists. split; [reflexivity|]. simpl. split_and!; [done|done|].
    apply Hdeliver.
Qed.

(** ** The supervisor loop *)

Lemma restarts_on_failure_spec pol :
  restarts_on_failure pol = true
  ↔ pol = "on-failure"%string ∨ pol = "always"%string.
Proof.
  unfold restarts_on_failure. rewrite orb_true_iff.
  by rewrite !bool_decide_eq_true.
Qed.

(** The loop is over once it has returned or raised. *)
Lemma returned_is_final name cmd pol o w :
  monitor_step name cmd pol o Returned w = None.
Proof. by destruct o. Qed.

Lemma raised_is_final name cmd pol o e w :
  monitor_step name cmd pol o (Raised e) w = None.
Proof. by destruct o. Qed.

(** C1, as the code has it.  When [subprocess.Popen] raises, nothing catches
    it: the exception leaves [monitor_script], the loop is over, and the
    step writes nothing (no [error] status, no pause, no restart), whatever
    the policy. *)
Theorem launch_failure_ends_loop (name : string) (cmd : list string)
    (pol : string) (now : timestamp) (e : exn) (w : world) :
  monitor_step name cmd pol (PopenFails now e) (L63 false) w
    = Some (Raised e, w)
  ∧ ∀ o w', monitor_step name cmd pol o (Raised e) w' = None.
Proof. split; [done|]. intros. apply raised_is_final. Qed.

(** C1 fails as stated: under policy [always], with a record whose status is
    [stopped], a launch that fails with ENOENT ends the loop with the
    exception; the status is still [stopped], not [error], and no pause was
    taken towards a relaunch. *)
Lemma launch_failure_not_converted :
  run_monitor "job" job_cmd "always" [Tau; PopenFails 7 (OSError 2); Tau]
              L61 (job_world "always")
    = (Raised (OSError 2), job_world "always")
  ∧ field status "job" (job_world "always") = Some "stopped"%string
  ∧ field status "job" (job_world "always") ≠ Some "error"%string.
Proof. vm_compute. split_and!; [reflexivity|reflexivity|discriminate]. Qed.

(** Lines 99-111 written out by cases on a record that exists. *)
Lemma apply_policy_Some name pol code w p :
  processes w !! name = Some p →
  apply_policy name pol code w
  = if bool_decide (code ≠ 0) then
      (if restarts_on_failure pol then L103 else Returned,
       with_processes (insert name (set_status "error" p)) w)
    else
      (if bool_decide (pol = "always"%string) then L109 else Returned,
       with_processes (insert name (set_status "stopped" p)) w).
Proof.
  intros Hp. unfold apply_policy. rewrite !(store_Some _ _ _ _ Hp).
  case_bool_decide as Hc.
  - destruct (restarts_on_failure pol) eqn:Hr; [done|].
    case_bool_decide as Ha; [|done].
    subst pol. discriminate Hr.
  - by case_bool_decide.
Qed.

(** C2.  After a child has exited and the second checkpoint found the stop
    flag clear (program point [L94 code false]), on a record that exists:
    a nonzero code stores status [error], and the loop goes on to its
    two-second pause and back to the top exactly when the policy is
    [on-failure] or [always], and returns otherwise; a zero code stores
    status [stopped], and the loop goes on to the pause exactly when the
    policy is [always], and returns otherwise.  The step writes nothing but
    the status.  Either pause adds [time.sleep(2)], and nothing else, to
    what the loop has done to the outside, and leads to the top of the
    loop; so from the decision on, the loop is back at the top with exactly
    one sleep of 2 logged when it relaunches, and has returned with nothing
    logged when it does not.  A loop that has returned takes no further
    step, so creates no further process. *)
Theorem policy_after_exit (name : string) (cmd : list string) (pol : string)
    (code : Z) (w : world) (p : pinfo) :
  processes w !! name = Some p →
  let again :=
    if bool_decide (code ≠ 0)
    then bool_decide (pol = "on-failure"%string ∨ pol = "always"%string)
    else bool_decide (pol = "always"%string) in
  ∃ at' w',
    monitor_step name cmd pol Tau (L94 code false) w = Some (at', w')
    ∧ processes w'
      = <[name := set_status (if bool_decide (code ≠ 0)
                              then "error" else "stopped")%string p]>
          (processes w)
    ∧ queues w' = queues w
    ∧ effects w' = effects w
    ∧ at' = (if bool_decide (code ≠ 0) then
               if bool_decide (pol = "on-failure"%string
                               ∨ pol = "always"%string)
               then L103 else Returned
             else
               if bool_decide (pol = "always"%string) then L109 else Returned)
    ∧ (∀ v, ∃ v',
         monitor_step name cmd pol Tau L103 v = Some (L61, v')
         ∧ processes v' = processes v
         ∧ queues v' = queues v
         ∧ effects v' = effects v ++ [Sleep 2])
    ∧ (∀ v, ∃ v',
         monitor_step name cmd pol Tau L109 v = Some (L61, v')
         ∧ processes v' = processes v
         ∧ queues v' = queues v
         ∧ effects v' = effects v ++ [Sleep 2])
    ∧ (run_monitor name cmd pol [Tau; Tau] (L94 code false) w).1
      = (if again then L61 else Returned)
    ∧ effects (run_monitor name cmd pol [Tau; Tau] (L94 code false) w).2
      = effects w ++ (if again then [Sleep 2] else [])
    ∧ processes (run_monitor name cmd pol [Tau; Tau] (L94 code false) w).2
      = processes w'
    ∧ (∀ o v, monitor_step name cmd pol o Returned v = None).
Proof.
  intros Hp again.
  assert (Hfinal : ∀ o v, monitor_step name cmd pol o Returned v = None)
    by (intros; apply returned_is_final).
  assert (Hpause1 : ∀ v, ∃ v',
             monitor_step name cmd pol Tau L103 v = Some (L61, v')
             ∧ processes v' = processes v ∧ queues v' = queues v
             ∧ effects v' = effects v ++ [Sleep 2])
    by (intros v; by eexists).
  assert (Hpause2 : ∀ v, ∃ v',
             monitor_step name cmd pol Tau L109 v = Some (L61, v')
             ∧ processes v' = processes v ∧ queues v' = queues v
             ∧ effects v' = effects v ++ [Sleep 2])
    by (intros v; by eexists).
  assert (Hpol : restarts_on_failure pol
                 = bool_decide (pol = "on-failure"%string
                                ∨ pol = "always"%string)).
  { destruct (restarts_on_failure pol) eqn:Hr.
    - apply restarts_on_failure_spec in Hr. by rewrite bool_decide_eq_true_2.
    - rewrite bool_decide_eq_false_2; [done|].
      intros H. apply restarts_on_failure_spec in H. congruence. }
  cbn [run_monitor monitor_step].
  rewrite (apply_policy_Some _ _ _ _ _ Hp). rewrite Hpol.
  unfold again.
  destruct (bool_decide (code ≠ 0));
    destruct (bool_decide (pol = "on-failure"%string ∨ pol = "always"%string));
    destruct (bool_decide (pol = "always"%string));
    simpl; eexists _, _; (split; [reflexivity|]);
    split_and!; simpl; rewrite ?app_nil_r; done.
Qed.

Lemma policy_after_exit_witness :
  let r := run_monitor "job" job_cmd "on-failure" [Tau; Tau] (L94 1 false)
                       (job_world "on-failure") in
  r.1 = L61
  ∧ effects r.2 = [Sleep 2]
  ∧ field status "job" r.2 = Some "error"%string.
Proof.
  intros r.
  destruct (policy_after_exit "job" job_cmd "on-failure" 1
              (job_world "on-failure")
              (initial_record (job_meta "on-failure")) eq_refl)
    as (at' & w' & _ & Hprocs & _ & _ & _ & _ & _ & Hpc & Heff & Hrun & _).
  fold r in Hpc, Heff, Hrun.
  split; [exact Hpc|]. split; [exact Heff|].
  unfold field, get_record. rewrite Hrun, Hprocs. reflexivity.
Defined.

(** ** Who writes which field

    A relation [R] between the value of a field before and after says what a
    write may do to it: [eq] for fields that are never written, and weaker
    relations for flags that only move one way. *)

Lemma index_lookup scripts w n :
  processes (index scripts w).2 !! n
  = match processes w !! n with
    | Some p => Some p
    | None => initial_record <$> scripts !! n
    end.
Proof.
  unfold index; simpl. revert n.
  refine (map_fold_weak_ind
            (λ acc (m : gmap string script_meta), ∀ n,
               acc !! n = match processes w !! n with
                          | Some p => Some p
                          | None => initial_record <$> m !! n
                          end) _ _ _ _ scripts).
  - intros n. rewrite lookup_empty. by destruct (processes w !! n).
  - intros i x m r Hi IH n. unfold setdefault.
    pose proof (IH i) as Hri. rewrite Hi in Hri. simpl in Hri.
    destruct (decide (n = i)) as [->|Hne].
    + rewrite lookup_insert_eq. simpl.
      destruct (processes w !! i) as [p|] eqn:Hp.
      * by rewrite Hri.
      * rewrite Hri. by rewrite lookup_insert_eq.
    + rewrite (lookup_insert_ne m) by done.
      destruct (r !! i); [apply IH|].
      rewrite lookup_insert_ne by done. apply IH.
Qed.

Section Frame.
Context {A : Type} (g : pinfo → option A) (R : relation (option A)).
Context `{!PreOrder R}.

Lemma update_respects f name n w :
  (name = n → respects g R f) →
  R (field g n w)
    (field g n (with_processes (insert name (f (get_record name w))) w)).
Proof.
  intros Hf. destruct (decide (name = n)) as [->|Hne].
  - rewrite field_store_eq. apply (Hf eq_refl).
  - by rewrite field_store_ne.
Qed.

Lemma store_respects f name n w w' :
  (name = n → respects g R f) →
  store name f w = Return w' →
  R (field g n w) (field g n w').
Proof.
  unfold store. intros Hf Hs.
  destruct (processes w !! name) as [p|] eqn:Hp; [|done].
  injection Hs as <-. rewrite <- (get_record_Some _ _ _ Hp).
  by apply update_respects.
Qed.

Lemma then_respects k name f n w at' w' :
  (name = n → respects g R f) →
  then_ (store name f w) k w = (at', w') →
  R (field g n w) (field g n w').
Proof.
  intros Hf. unfold then_.
  destruct (store name f w) as [w1|e] eqn:Hs; intros [= <- <-]; [|done].
  by eapply store_respects.
Qed.

(** Closes a goal about a step that is one [store] of the loop. *)
Ltac by_store H :=
  eapply then_respects; [|exact H]; intros _;
  match goal with
  | Hw : ∀ _, respects _ _ (set_status _) |- respects _ _ (set_status _) =>
      apply Hw
  | Hw : ∀ _ _, respects _ _ (record_launch _ _) |- _ => apply Hw
  | Hw : ∀ _, respects _ _ (set_returncode _) |- _ => apply Hw
  end.

Lemma monitor_step_respects name cmd pol o at_ w at' w' n :
  loop_respects g R →
  monitor_step name cmd pol o at_ w = Some (at', w') →
  R (field g n w) (field g n w').
Proof.
  intros (Hst & Hla & Hout & Hrc) Hstep.
  destruct at_ as [|[]| | | | | |? []| | | |]; destruct o; simpl in Hstep;
    try discriminate Hstep.
  - destruct (read_should_stop name w); by simplify_eq.
  - simplify_eq. by_store Hstep.
  - by simplify_eq.
  - by simplify_eq.
  - simplify_eq. by_store Hstep.
  - unfold then_, record_line in Hstep.
    destruct (processes w !! name) as [p|] eqn:Hp; [|by simplify_eq].
    destruct (output p); simplify_eq; [|done].
    rewrite <- (get_record_Some _ _ _ Hp).
    apply (update_respects (set_output _)). intros _. apply Hout.
  - by simplify_eq.
  - simplify_eq. by_store Hstep.
  - by simplify_eq.
  - by simplify_eq.
  - destruct (read_should_stop name w); by simplify_eq.
  - simplify_eq. by_store Hstep.
  - assert (Hw : w' = (apply_policy name pol code w).2)
      by (by simplify_eq; rewrite Hstep).
    rewrite Hw. clear Hstep Hw. unfold apply_policy.
    case_bool_decide.
    + destruct (store name (set_status "error") w) as [w1|] eqn:Hs;
        [|done].
      assert (R (field g n w) (field g n w1))
        by (eapply store_respects; [|exact Hs]; intros _; apply Hst).
      destruct (restarts_on_failure pol); [done|]. by case_bool_decide.
    + destruct (store name (set_status "stopped") w) as [w1|] eqn:Hs;
        [|done].
      assert (R (field g n w) (field g n w1))
        by (eapply store_respects; [|exact Hs]; intros _; apply Hst).
      by case_bool_decide.
  - by simplify_eq.
  - by simplify_eq.
Qed.

Lemma field_same_processes n w w' :
  processes w' = processes w → field g n w' = field g n w.
Proof. unfold field, get_record. by intros ->. Qed.

Lemma insert_respects f name n w qs es :
  (name = n → respects g R f) →
  R (field g n w)
    (field g n (mkWorld (<[name := f (get_record name w)]> (processes w))
                        qs es)).
Proof.
  intros Hf.
  rewrite (field_same_processes n
             (with_processes (insert name (f (get_record name w))) w)
             (mkWorld _ qs es)) by done.
  by apply update_respects.
Qed.

Lemma start_script_respects scripts name n s :
  (name = n →
   (∀ m, respects g R (reset_record m))
   ∧ (∀ t, respects g R (set_thread t))) →
  R (field g n (sys_world s))
    (field g n (sys_world (start_script scripts name s).2)).
Proof.
  intros Hf. unfold start_script.
  destruct (scripts !! name) as [m|]; [|done].
  case_bool_decide; [done|].
  set (w1 := with_processes _ (sys_world s)).
  assert (H1 : R (field g n (sys_world s)) (field g n w1)).
  { apply update_respects. intros Hn. by apply Hf. }
  destruct (s_path m); [|done].
  destruct (store name _ w1) as [w2|] eqn:Hs; [|done]. simpl.
  etrans; [exact H1|].
  eapply store_respects; [|exact Hs]. intros Hn. by apply Hf.
Qed.

Lemma stop_signal_processes proc alive timely w :
  processes (stop_signal proc alive timely w) = processes w.
Proof. by destruct proc, alive, timely. Qed.

Lemma exec_respects scripts n a s :
  action_respects g R n a →
  R (field g n (sys_world s)) (field g n (sys_world (exec scripts a s))).
Proof.
  destruct a as [|name|name alive timely|name|name|q|name q|t o];
    intros Ha; [|simpl in *..].
  - change (sys_world (exec scripts AIndex s))
      with (index scripts (sys_world s)).2.
    simpl in Ha. unfold field, get_record. rewrite index_lookup.
    destruct (processes (sys_world s) !! n); [done|].
    destruct (scripts !! n); [apply Ha|done].
  - by apply start_script_respects.
  - unfold stop_mark.
    destruct (processes (sys_world s) !! name) as [p|] eqn:Hp; [|done].
    simpl. rewrite (field_same_processes n _ _
                      (stop_signal_processes _ _ _ _)).
    rewrite <- (get_record_Some _ _ _ Hp). by apply update_respects.
  - unfold stop_finish.
    destruct (store name _ (sys_world s)) as [w'|] eqn:Hs; [|done].
    by eapply store_respects.
  - unfold ws_subscribe; simpl.
    apply (insert_respects (set_subscribers _)). intros Hn. by apply Ha.
  - done.
  - unfold ws_unsubscribe.
    destruct (processes (sys_world s) !! name) as [p|] eqn:Hp; [|done].
    destruct (subscribers p); [|done].
    case_bool_decide; [|done].
    rewrite <- (get_record_Some _ _ _ Hp).
    apply update_respects. intros Hn. by apply Ha.
  - unfold step_thread.
    destruct (sys_threads s !! t) as [th|]; [|done].
    destruct (monitor_step _ _ _ _ _ _) as [[at' w']|] eqn:Hstep; [|done].
    by eapply monitor_step_respects.
Qed.

Lemma exec_all_respects scripts n acts s :
  Forall (action_respects g R n) acts →
  R (field g n (sys_world s))
    (field g n (sys_world (exec_all scripts acts s))).
Proof.
  intros Hacts. revert s.
  induction Hacts as [|a acts Ha _ IH]; intros s; [done|].
  simpl. etrans; [by apply (exec_respects scripts n a)|]. apply IH.
Qed.
End Frame.

(** ** The stop flag *)

#[global] Instance stays_set_preorder : PreOrder stays_set.
Proof. split; unfold stays_set; [by intros ?|]. intros x y z; auto. Qed.

Lemma record_launch_keeps {A} (g : pinfo → option A) now proc p :
  (∀ v q, g (set_process v q) = g q) →
  (∀ v q, g (set_status v q) = g q) →
  (∀ v q, g (set_start_time v q) = g q) →
  (∀ v q, g (set_output v q) = g q) →
  g (record_launch now proc p) = g p.
Proof.
  intros Hpr Hst Hti Hout. unfold record_launch.
  destruct (output _); rewrite ?Hout, Hti, Hst, Hpr; done.
Qed.

(** No write of the loop touches the stop flag. *)
Lemma loop_keeps_should_stop (R : relation (option bool)) `{!PreOrder R} :
  loop_respects should_stop R.
Proof.
  split_and!; intros; intros p; try reflexivity.
  by rewrite record_launch_keeps.
Qed.

Lemma sticky_action name a :
  a ≠ AStart name → action_respects should_stop stays_set name a.
Proof.
  destruct a; simpl; intros Ha; try done.
  - intros ->. done.
  - by intros _ p.
  - by intros _ v p.
  - by intros _ v p.
  - apply loop_keeps_should_stop, _.
Qed.

(** At a checkpoint whose read found the flag set, the loop stores
    [stopped] and returns, whatever the registry has become since the read,
    and starts no process on the way. *)
Lemma observed_stop_returns name cmd pol at_ v p :
  (at_ = L63 true ∨ ∃ code, at_ = L94 code true) →
  processes v !! name = Some p →
  monitor_step name cmd pol Tau at_ v
  = Some (Returned, with_processes (insert name (set_status "stopped" p)) v).
Proof.
  intros [->|[code ->]] Hp; simpl; by rewrite (store_Some _ _ _ _ Hp).
Qed.

Lemma checkpoint_reads_flag name cmd pol at_ w :
  field should_stop name w = Some true →
  (at_ = L61 ∨ ∃ code, at_ = L91 code) →
  ∃ v,
    run_monitor name cmd pol [Tau; Tau] at_ w = (Returned, v)
    ∧ field status name v = Some "stopped"%string
    ∧ effects v = effects w.
Proof.
  unfold field, get_record. intros Hflag Hat.
  destruct (processes w !! name) as [p|] eqn:Hp; [|done]. simpl in Hflag.
  eexists. destruct Hat as [->|[code ->]]; simpl;
    unfold read_should_stop; rewrite Hp, Hflag; simpl;
    rewrite (store_Some _ _ _ _ Hp); simpl;
    (split; [reflexivity|]); simpl; by rewrite lookup_insert_eq.
Qed.

(** An explicit start that gets past the [running] test clears the flag. *)
Lemma start_clears_flag scripts name m s :
  scripts !! name = Some m →
  field status name (sys_world s) ≠ Some "running"%string →
  field should_stop name (sys_world (start_script scripts name s).2)
  = Some false.
Proof.
  intros Hm Hst. unfold start_script. rewrite Hm.
  rewrite bool_decide_eq_false_2 by done.
  destruct (s_path m); simpl.
  - unfold store; simpl. rewrite lookup_insert_eq. simpl.
    by rewrite field_store_eq.
  - by rewrite field_store_eq.
Qed.

(** C3.  Once [should_stop] is set for a name, it stays set through every
    action of the system other than a start of that name: steps of any
    supervisor thread, stop requests, [index], subscriptions.  The loop for
    that name, arriving at either checkpoint (the top of the loop, or after
    the exit code is stored), reads the flag, stores status [stopped] and
    returns without creating a process (the effect log is unchanged); having
    read the flag as set, it returns even if the registry changed before the
    store; and a loop that has returned takes no further step.  A start of
    that name that finds the status other than [running] clears the flag. *)
Theorem stop_flag_sticky (scripts : gmap string script_meta)
    (acts : list action) (s : system) (name : string) :
  field should_stop name (sys_world s) = Some true →
  Forall (λ a, a ≠ AStart name) acts →
  let w' := sys_world (exec_all scripts acts s) in
  field should_stop name w' = Some true
  ∧ (∀ cmd pol, ∃ v,
       run_monitor name cmd pol [Tau; Tau] L61 w' = (Returned, v)
       ∧ field status name v = Some "stopped"%string
       ∧ effects v = effects w')
  ∧ (∀ cmd pol code, ∃ v,
       run_monitor name cmd pol [Tau; Tau] (L91 code) w' = (Returned, v)
       ∧ field status name v = Some "stopped"%string
       ∧ effects v = effects w')
  ∧ (∀ cmd pol code v p,
       processes v !! name = Some p →
       let v' := with_processes (insert name (set_status "stopped" p)) v in
       monitor_step name cmd pol Tau (L63 true) v = Some (Returned, v')
       ∧ monitor_step name cmd pol Tau (L94 code true) v
         = Some (Returned, v'))
  ∧ (∀ cmd pol o v, monitor_step name cmd pol o Returned v = None)
  ∧ (∀ m,
       scripts !! name = Some m →
       field status name w' ≠ Some "running"%string →
       field should_stop name
             (sys_world (exec scripts (AStart name)
                              (exec_all scripts acts s)))
       = Some false).
Proof.
  intros Hflag Hacts w'.
  assert (Hflag' : field should_stop name w' = Some true).
  { refine (exec_all_respects should_stop stays_set scripts name acts s _
                                Hflag).
    eapply Forall_impl; [exact Hacts|]. intros a. apply sticky_action. }
  split_and!.
  - done.
  - intros. apply checkpoint_reads_flag; eauto.
  - intros. apply checkpoint_reads_flag; eauto.
  - intros cmd pol code v p Hp v'. split; apply observed_stop_returns; eauto.
  - intros. apply returned_is_final.
  - intros m Hm Hst. by eapply start_clears_flag.
Qed.

Lemma stop_flag_sticky_witness :
  let acts := [AStopFinish "job"; AIndex; ASubscribe "job"; AStep 0%nat Tau;
               AStopMark "job" false false] in
  field should_stop "job"
        (sys_world (exec_all (job_scripts "always") acts stop_requested_system))
  = Some true.
Proof.
  intros acts.
  refine (proj1 (stop_flag_sticky (job_scripts "always") acts
                   stop_requested_system "job" _ _)).
  - reflexivity.
  - repeat constructor; discriminate.
Defined.

(** ** Writers of the lifecycle fields *)

(** A handler action keeps any field that [index]'s new record leaves
    absent and that the handlers' writes do not mention. *)
Lemma handler_keeps {A} (g : pinfo → option A) scripts a s n :
  is_loop_step a = false →
  (∀ m, g (initial_record m) = g empty_pinfo) →
  (∀ m p, g (reset_record m p) = g p) →
  (∀ v p, g (set_thread v p) = g p) →
  (∀ v p, g (set_should_stop v p) = g p) →
  (∀ v p, g (set_status v p) = g p) →
  (∀ v p, g (set_subscribers v p) = g p) →
  field g n (sys_world (exec scripts a s)) = field g n (sys_world s).
Proof.
  intros Ha Hin Hre Hth Hss Hst Hsu. symmetry.
  apply (exec_respects g eq).
  destruct a; simpl; try done; try (by intros _; intros p);
    try (by intros _ v p).
  by intros _; split; intros ? p.
Qed.

(** Apart from the loop, only the second block of [stop_script] and
    [index] (for a name it has no record of) write the status. *)
Lemma status_kept_by scripts a s n :
  is_loop_step a = false →
  (∀ name, a ≠ AStopFinish name) →
  (a = AIndex → is_Some (processes (sys_world s) !! n)) →
  field status n (sys_world (exec scripts a s)) = field status n (sys_world s).
Proof.
  intros Ha Hfin Hidx.
  destruct a as [|name|name alive timely|name|name|q|name q|t o];
    try discriminate Ha.
  - destruct (Hidx eq_refl) as [p Hp].
    change (sys_world (exec scripts AIndex s))
      with (index scripts (sys_world s)).2.
    unfold field, get_record. by rewrite index_lookup, Hp.
  - symmetry. apply (exec_respects status eq). by intros _; split; intros ? p.
  - symmetry. apply (exec_respects status eq). by intros _ p.
  - by destruct (Hfin name).
  - symmetry. apply (exec_respects status eq). by intros _ v p.
  - symmetry. by apply (exec_respects status eq).
  - symmetry. apply (exec_respects status eq). by intros _ v p.
Qed.

(** C4, as the code has it.  No handler action (index, start, either block
    of stop, subscribe, pump, unsubscribe) writes the process handle, the
    start time or the exit code of any name: those three have the loop as
    their only writer.  The status has more writers: start, the first block
    of stop and the subscription actions leave it alone, and [index] leaves
    it alone on a record that exists, but the second block of [stop_script]
    stores [stopped] into it. *)
Theorem loop_fields_single_writer (scripts : gmap string script_meta)
    (a : action) (s : system) (n : string) :
  is_loop_step a = false →
  let w := sys_world s in
  let w' := sys_world (exec scripts a s) in
  field process n w' = field process n w
  ∧ field start_time n w' = field start_time n w
  ∧ field returncode n w' = field returncode n w
  ∧ ((∀ name, a ≠ AStopFinish name) →
     (a = AIndex → is_Some (processes w !! n)) →
     field status n w' = field status n w)
  ∧ (a = AStopFinish n → is_Some (processes w !! n) →
     field status n w' = Some "stopped"%string).
Proof.
  intros Ha w w'. split_and!.
  - by apply handler_keeps.
  - by apply handler_keeps.
  - by apply handler_keeps.
  - intros. by apply status_kept_by.
  - intros -> [p Hp]. unfold w'; simpl. unfold stop_finish.
    rewrite (store_Some _ _ _ _ Hp). simpl. by rewrite field_store_eq.
Qed.

Lemma loop_fields_single_writer_witness :
  let s := mkSystem running_world [] in
  let s' := exec (job_scripts "always") (AStopMark "job" true true) s in
  field process "job" (sys_world s') = Some 1%positive
  ∧ field start_time "job" (sys_world s') = Some 100
  ∧ field returncode "job" (sys_world s') = None.
Proof.
  intros s s'.
  destruct (loop_fields_single_writer (job_scripts "always")
              (AStopMark "job" true true) s "job" eq_refl)
    as (Hp & Ht & Hr & _).
  fold s' in Hp, Ht, Hr. rewrite Hp, Ht, Hr. by vm_compute.
Defined.

(** C4 fails as stated: [stop_script] on a name whose child is running
    overwrites the status [running] with [stopped]; the write is the
    handler's, not the loop's. *)
Lemma stop_script_writes_status :
  field status "job" running_world = Some "running"%string
  ∧ field status "job" (stop_script "job" true true running_world).2
    = Some "stopped"%string
  ∧ field status "job"
      (sys_world (exec (job_scripts "always") (AStopFinish "job")
                       (mkSystem running_world [])))
    = Some "stopped"%string.
Proof. by vm_compute. Qed.

(** ** Subscribers *)

Lemma broadcast_queue name line v q qu :
  q ∈ snapshot_subscribers name v →
  queues v !! q = Some qu →
  queues (_broadcast_line name line v) !! q = Some (offered line qu).
Proof.
  intros Hq Hqu. simpl. rewrite deliver_lookup, Hqu.
  by destruct (decide (q ∈ snapshot_subscribers name v)).
Qed.

Lemma offered_maxsize line qu : maxsize (offered line qu) = maxsize qu.
Proof. unfold offered, put_nowait. by destruct (full qu). Qed.

Lemma full_cap qu :
  maxsize qu = SUBSCRIBER_CAP →
  full qu = bool_decide (SUBSCRIBER_CAP ≤ Z.of_nat (length (items qu))).
Proof.
  intros Hm. unfold full. rewrite Hm. unfold SUBSCRIBER_CAP. simpl.
  case_bool_decide; [by apply Z.leb_le|by apply Z.leb_gt; lia].
Qed.

(** With nobody taking lines off, a sink holds the lines published since
    some point, in order, up to its capacity. *)
Lemma broadcast_fill name q lines v its :
  q ∈ snapshot_subscribers name v →
  queues v !! q = Some (mkQueue SUBSCRIBER_CAP its) →
  queues (foldl (λ w l, _broadcast_line name l w) v lines) !! q
  = Some (mkQueue SUBSCRIBER_CAP
            (its ++ take (Z.to_nat SUBSCRIBER_CAP - length its) lines)).
Proof.
  revert v its. induction lines as [|l ls IH]; intros v its Hq Hqu.
  - simpl. by rewrite take_nil, app_nil_r.
  - cbn [foldl].
    pose proof (broadcast_queue name l v q _ Hq Hqu) as Hstep.
    assert (Hq' : q ∈ snapshot_subscribers name (_broadcast_line name l v))
      by done.
    destruct (full (mkQueue SUBSCRIBER_CAP its)) eqn:Hfull.
    + rewrite offered_full in Hstep by done.
      rewrite (IH _ _ Hq' Hstep).
      rewrite full_cap in Hfull by done. apply bool_decide_eq_true in Hfull.
      simpl in Hfull.
      by replace (Z.to_nat SUBSCRIBER_CAP - length its)%nat with 0%nat by lia.
    + rewrite offered_room in Hstep by done. simpl in Hstep.
      rewrite (IH _ _ Hq' Hstep).
      rewrite full_cap in Hfull by done. apply bool_decide_eq_false in Hfull.
      simpl in Hfull. rewrite length_app. simpl.
      replace (Z.to_nat SUBSCRIBER_CAP - length its)%nat
        with (S (Z.to_nat SUBSCRIBER_CAP - (length its + 1)))%nat by lia.
      simpl. by rewrite <- app_assoc.
Qed.

(** C8, as the code has it.  The locked block of [ws_logs] creates a queue
    that no one else holds, empty and bounded at 1000 lines, adds it to the
    subscriber set stored for the name (creating the record or the set when
    absent) and changes nothing else; the text it returns is the last 2000
    characters of the stored output (all of it when shorter), and nothing is
    sent for an empty text.  From then on the lines published for the name
    are offered to the queue in the order they are published, each once:
    the queue holds them in that order up to the first 1000, and the lines
    offered after that are dropped. *)
Theorem subscribe_registers_and_streams (name : string) (w : world)
    (lines : list str) :
  let q := (ws_subscribe name w).1.1 in
  let tail := (ws_subscribe name w).1.2 in
  let w' := (ws_subscribe name w).2 in
  (q ∉ dom (queues w))
  ∧ queues w' !! q = Some (mkQueue 1000 [])
  ∧ (∀ q', q' ≠ q → queues w' !! q' = queues w !! q')
  ∧ processes w'
    = <[name := set_subscribers
                  ({[q]} ∪ default ∅ (subscribers (get_record name w)))
                  (get_record name w)]> (processes w)
  ∧ effects w' = effects w
  ∧ snapshot_subscribers name w' = {[q]} ∪ snapshot_subscribers name w
  ∧ tail = slice_from (-2000) (default [] (field output name w))
  ∧ Z.of_nat (length tail)
    = Z.min (Z.of_nat (length (default [] (field output name w)))) 2000
  ∧ ws_greeting tail = (if decide (tail = []) then [] else [tail])
  ∧ queues (foldl (λ v l, _broadcast_line name l v) w' lines) !! q
    = Some (mkQueue 1000 (take (Z.to_nat 1000) lines)).
Proof.
  intros q tail w'.
  assert (Hq : queues w' !! q = Some (mkQueue SUBSCRIBER_CAP [])).
  { unfold w', q; simpl. by rewrite lookup_insert_eq. }
  assert (Hsubs : snapshot_subscribers name w'
                  = {[q]} ∪ snapshot_subscribers name w).
  { unfold w', q, snapshot_subscribers, get_record; simpl.
    by rewrite lookup_insert_eq. }
  assert (Hin : q ∈ snapshot_subscribers name w').
  { rewrite Hsubs. by apply elem_of_union_l, elem_of_singleton. }
  split_and!.
  - apply is_fresh.
  - done.
  - intros q' Hne. unfold w'; simpl. by rewrite lookup_insert_ne.
  - done.
  - done.
  - done.
  - done.
  - unfold tail; simpl. by apply (slice_from_neg_length _ 2000).
  - unfold ws_greeting. by destruct tail.
  - by rewrite (broadcast_fill name q lines w' [] Hin Hq).
Qed.

(** C8 fails as stated.  With 3000 characters stored, the text handed to a
    new subscriber is 2000 characters long, not the stored tail.  With 1001
    lines published after attachment, the queue holds 1000: the last line
    published is not among them. *)
Lemma subscriber_stream_not_exact :
  (length <$> field output "job" long_output_world = Some 3000%nat
   ∧ length (ws_subscribe "job" long_output_world).1.2 = 2000%nat)
  ∧ (let sub := ws_subscribe "job" (job_world "always") in
     let lines := replicate 1000 line_A ++ [[66%N; 10%N]] in
     let after := foldl (λ v l, _broadcast_line "job" l v) sub.2 lines in
     items <$> queues after !! sub.1.1 = Some (replicate 1000 line_A)).
Proof. by vm_compute. Qed.

(** A defect of [ws_logs] that the statement above leaves aside (the other
    is the pump, which raises: see [ws_pump]).  A subscriber that attaches
    between line 83 (the line is stored) and line 49 (the subscriber set is
    copied) finds the line in its initial text and then again in its
    queue. *)
Lemma late_subscriber_gets_line_twice :
  let scripts := job_scripts "always" in
  let s1 :=
    exec scripts (AStep 0%nat (StdoutLine line_A)) streaming_system in
  let sub := ws_subscribe "job" (sys_world s1) in
  let s2 :=
    exec_all scripts [ASubscribe "job"; AStep 0%nat Tau; AStep 0%nat Tau]
             s1 in
  sub.1.2 = line_A
  ∧ items <$> queues (sys_world s2) !! sub.1.1 = Some [line_A].
Proof. by vm_compute. Qed.

(** ** Unknown names *)

Lemma broadcast_no_subscribers name line w :
  snapshot_subscribers name w = ∅ → _broadcast_line name line w = w.
Proof.
  intros Hs. unfold _broadcast_line. rewrite Hs.
  unfold deliver. rewrite elements_empty. by destruct w.
Qed.

(** C9, as the code has it.  For a name with neither a script entry nor a
    record, no operation raises and the outcomes differ: [start_script] and
    [script_detail] answer 404 "Script not found" and change nothing;
    [stop_script] changes nothing and redirects to the index page;
    [ws_logs] does not refuse the name: it creates a record holding only the
    subscriber set with the new queue, and has no initial text to send;
    publishing to the name and unsubscribing from it change nothing. *)
Theorem unknown_name_outcomes (scripts : gmap string script_meta)
    (name : string) (s : system) (now : timestamp) (alive timely : bool)
    (line : str) (q : qid) :
  scripts !! name = None →
  processes (sys_world s) !! name = None →
  let w := sys_world s in
  start_script scripts name s = (Return not_found, s)
  ∧ script_detail scripts name now w = not_found
  ∧ stop_script name alive timely w = (Return (RedirectResponse "/" 303), w)
  ∧ (ws_subscribe name w).1.2 = []
  ∧ ws_greeting (ws_subscribe name w).1.2 = []
  ∧ processes (ws_subscribe name w).2 !! name
    = Some (set_subscribers {[ (ws_subscribe name w).1.1 ]} empty_pinfo)
  ∧ ws_unsubscribe name q w = w
  ∧ _broadcast_line name line w = w.
Proof.
  intros Hs Hp w. subst w. split_and!.
  - unfold start_script. by rewrite Hs.
  - unfold script_detail. by rewrite Hs.
  - unfold stop_script, stop_mark. by rewrite Hp.
  - unfold ws_subscribe, get_record. by rewrite Hp.
  - unfold ws_subscribe, get_record. by rewrite Hp.
  - unfold ws_subscribe, get_record. rewrite Hp. simpl.
    rewrite lookup_insert_eq. f_equal. unfold set_subscribers; simpl.
    f_equal. f_equal. apply (right_id_L ∅ (∪)).
  - unfold ws_unsubscribe. by rewrite Hp.
  - apply broadcast_no_subscribers.
    unfold snapshot_subscribers, get_record. by rewrite Hp.
Qed.

Lemma unknown_name_outcomes_witness :
  start_script ∅ "ghost" (mkSystem empty_world [])
    = (Return not_found, mkSystem empty_world [])
  ∧ stop_script "ghost" true true empty_world
    = (Return (RedirectResponse "/" 303), empty_world).
Proof.
  destruct (unknown_name_outcomes ∅ "ghost" (mkSystem empty_world []) 0
              true true [] 1%positive)
    as (Hstart & _ & Hstop & _); [reflexivity|reflexivity|].
  split; [exact Hstart|exact Hstop].
Defined.

(** C9 fails as stated: for a name nobody knows, [stop_script] answers with
    a redirect to ["/"], which is not the not-found answer, and [ws_logs]
    reports nothing and instead gives the name a record. *)
Lemma unknown_name_not_reported :
  stop_script "ghost" true true empty_world
    = (Return (RedirectResponse "/" 303), empty_world)
  ∧ RedirectResponse "/" 303 ≠ not_found
  ∧ processes empty_world !! "ghost"%string = None
  ∧ is_Some
      (processes (ws_subscribe "ghost" empty_world).2 !! "ghost"%string).
Proof.
  split_and!; [done|done|done|]. vm_compute. eauto.
Qed.

(** ** Start *)

(** [start_script] never writes the four lifecycle fields of any name, and
    it touches neither the queues nor the outside. *)
Lemma start_script_frame scripts name s n :
  let w := sys_world s in
  let w' := sys_world (start_script scripts name s).2 in
  field status n w' = field status n w
  ∧ field start_time n w' = field start_time n w
  ∧ field returncode n w' = field returncode n w
  ∧ field process n w' = field process n w.
Proof.
  intros w w'. unfold w, w'.
  split_and!; symmetry;
    apply (start_script_respects _ eq); by intros _; split; intros ? p.
Qed.

(** C10.  When [start_script] launches a loop (the name has a script entry
    with a path, and its status is not [running]), it answers with a
    redirect, and the record of the name afterwards is the record before
    (the empty dict if there was none) with five keys rewritten:
    [should_stop] false, [output] empty, [policy] from the script entry,
    [subscribers] the same set as before, [thread] the new thread; the
    status, start time, exit code and process handle are as before, and so
    is every other record, queue and effect.  The new thread stands at the
    top of its loop.  A status query on the state the handler leaves
    reports the previous status ([stopped] when there was none); the status
    is [running] after the new thread has gone through its first checkpoint
    and a successful launch. *)
Theorem start_does_not_write_status (scripts : gmap string script_meta)
    (name : string) (s : system) (m : script_meta) (path : string)
    (now : timestamp) (proc : handle) :
  scripts !! name = Some m →
  s_path m = Some path →
  field status name (sys_world s) ≠ Some "running"%string →
  let w := sys_world s in
  let p := get_record name w in
  let t := length (sys_threads s) in
  let th := mkThread name ("python3"%string :: path :: default [] (s_args m))
                     (meta_policy m) L61 in
  let r := start_script scripts name s in
  let w' := sys_world r.2 in
  r.1 = Return (RedirectResponse ("/script/" +:+ name) 303)
  ∧ sys_threads r.2 = sys_threads s ++ [th]
  ∧ processes w'
    = <[name := mkPinfo (process p) (Some t) (status p) (start_time p)
                        (Some []) (returncode p) (Some (meta_policy m))
                        (Some false) (Some (default ∅ (subscribers p)))]>
        (processes w)
  ∧ queues w' = queues w
  ∧ effects w' = effects w
  ∧ field status name w' = field status name w
  ∧ (∃ rt, script_detail scripts name now w'
           = TemplateResponse "detail.html" (DetailCtx name rt)
           ∧ r_status rt = default "stopped"%string (field status name w))
  ∧ field status name
      (run_monitor (t_name th) (t_cmd th) (t_policy th)
                   [Tau; PopenOk now proc; Tau] (t_pc th) w').2
    = Some "running"%string.
Proof.
  intros Hm Hpath Hst w p t th r w'.
  assert (Hr : r = (Return (RedirectResponse ("/script/" +:+ name) 303),
                    mkSystem
                      (with_processes
                         (insert name (set_thread t (reset_record m p)))
                         (with_processes (insert name (reset_record m p)) w))
                      (sys_threads s ++ [th]))).
  { unfold r, start_script. rewrite Hm, Hpath.
    rewrite bool_decide_eq_false_2 by exact Hst.
    unfold store; simpl. by rewrite lookup_insert_eq. }
  assert (Hprocs : processes w'
                   = <[name := set_thread t (reset_record m p)]> (processes w)).
  { unfold w'. rewrite Hr. simpl. apply insert_insert_eq. }
  assert (Hstatus : field status name w' = field status name w).
  { unfold field at 1, get_record. rewrite Hprocs, lookup_insert_eq. done. }
  split_and!.
  - by rewrite Hr.
  - by rewrite Hr.
  - exact Hprocs.
  - unfold w'. by rewrite Hr.
  - unfold w'. by rewrite Hr.
  - exact Hstatus.
  - unfold script_detail. rewrite Hm. eexists. split; [reflexivity|].
    simpl. by rewrite <- Hstatus.
  - simpl. unfold read_should_stop. rewrite Hprocs, lookup_insert_eq. simpl.
    unfold store; simpl. rewrite Hprocs, lookup_insert_eq. simpl.
    unfold field, get_record; simpl. by rewrite lookup_insert_eq.
Qed.

Lemma start_does_not_write_status_witness :
  let s := mkSystem (job_world "never") [] in
  let r := start_script (job_scripts "never") "job" s in
  r.1 = Return (RedirectResponse "/script/job" 303)
  ∧ field status "job" (sys_world r.2) = Some "stopped"%string.
Proof.
  intros s r.
  destruct (start_does_not_write_status (job_scripts "never") "job" s
              (job_meta "never") "job.py" 0 1%positive)
    as (Hresp & _ & _ & _ & _ & Hstatus & _);
    [reflexivity|reflexivity|by vm_compute|].
  split; [exact Hresp|]. fold r in Hstatus. rewrite Hstatus. reflexivity.
Defined.

(* ================================================================== *)
(** * Further properties of the engine *)

(** ** Every write, by cases *)

Lemma insert_rewrites Q name p' (ps : gmap string pinfo) n :
  rewrites Q (ps !! name) (Some p') →
  rewrites Q (ps !! n) (<[name := p']> ps !! n).
Proof.
  intros H. destruct (decide (n = name)) as [->|Hne].
  - by rewrite lookup_insert_eq.
  - rewrite lookup_insert_ne by done. constructor.
Qed.

Lemma store_rewrites Q name f w w' n :
  (∀ p, rewrites Q (Some p) (Some (f p))) →
  store name f w = Return w' →
  rewrites Q (processes w !! n) (processes w' !! n).
Proof.
  intros Hf. unfold store.
  destruct (processes w !! name) as [p|] eqn:Hp; [|done].
  intros [= <-]. simpl. apply insert_rewrites. rewrite Hp. apply Hf.
Qed.

Lemma then_rewrites Q name f k w at' w' n :
  (∀ p, rewrites Q (Some p) (Some (f p))) →
  then_ (store name f w) k w = (at', w') →
  rewrites Q (processes w !! n) (processes w' !! n).
Proof.
  intros Hf. unfold then_.
  destruct (store name f w) as [w1|e] eqn:Hs; intros [= <- <-].
  - by eapply store_rewrites.
  - constructor.
Qed.

Lemma apply_policy_rewrites Q name pol code w n :
  rewrites Q (processes w !! n)
             (processes (apply_policy name pol code w).2 !! n).
Proof.
  unfold apply_policy. case_bool_decide.
  - destruct (store name _ w) as [w1|e] eqn:Hs; [|constructor].
    assert (rewrites Q (processes w !! n) (processes w1 !! n))
      by (eapply store_rewrites; [|exact Hs]; intros; constructor).
    destruct (restarts_on_failure pol); [done|]. by case_bool_decide.
  - destruct (store name _ w) as [w1|e] eqn:Hs; [|constructor].
    assert (rewrites Q (processes w !! n) (processes w1 !! n))
      by (eapply store_rewrites; [|exact Hs]; intros; constructor).
    by case_bool_decide.
Qed.

(** A step of the loop changes a record only by one of the loop's writes. *)
Lemma monitor_step_rewrites Q name cmd pol o at_ w at' w' n :
  monitor_step name cmd pol o at_ w = Some (at', w') →
  rewrites Q (processes w !! n) (processes w' !! n).
Proof.
  intros Hstep.
  destruct at_ as [|[]| | | | | |? []| | | |]; destruct o; simpl in Hstep;
    try discriminate Hstep; simplify_eq;
    try (by constructor);
    try (eapply then_rewrites; [|exact Hstep]; intros; constructor).
  - destruct (read_should_stop name w); simplify_eq; constructor.
  - unfold then_, record_line in Hstep.
    destruct (processes w !! name) as [p|] eqn:Hp;
      [|simplify_eq; constructor].
    destruct (output p) as [out|] eqn:Hout; simplify_eq; [|constructor].
    simpl. apply insert_rewrites. rewrite Hp. by constructor.
  - destruct (read_should_stop name w); simplify_eq; constructor.
  - assert (Hw : w' = (apply_policy name pol code w).2)
      by (by rewrite Hstep).
    rewrite Hw. apply apply_policy_rewrites.
Qed.

Lemma deliver_requeues line subs (qs : gmap qid Queue) q :
  requeues (qs !! q) (deliver line subs qs !! q).
Proof.
  rewrite deliver_lookup. destruct (decide (q ∈ subs)); [|constructor].
  destruct (qs !! q); simpl; constructor.
Qed.

Lemma apply_policy_queues name pol code w :
  queues (apply_policy name pol code w).2 = queues w.
Proof.
  unfold apply_policy, store.
  destruct (processes w !! name); repeat case_match; done.
Qed.

Lemma then_queues name f k w at' w' :
  then_ (store name f w) k w = (at', w') → queues w' = queues w.
Proof.
  unfold then_, store. destruct (processes w !! name); by intros [= <- <-].
Qed.

(** A step of the loop changes a queue only by offering it a line. *)
Lemma monitor_step_requeues name cmd pol o at_ w at' w' q :
  monitor_step name cmd pol o at_ w = Some (at', w') →
  requeues (queues w !! q) (queues w' !! q).
Proof.
  intros Hstep.
  destruct at_ as [|[]| | | | | |? []| | | |]; destruct o; simpl in Hstep;
    try discriminate Hstep; simplify_eq;
    try (by constructor);
    try (rewrite (then_queues _ _ _ _ _ _ Hstep); constructor).
  - destruct (read_should_stop name w); simplify_eq; constructor.
  - unfold then_, record_line in Hstep.
    destruct (processes w !! name) as [p|]; [|simplify_eq; constructor].
    destruct (output p); simplify_eq; constructor.
  - apply deliver_requeues.
  - destruct (read_should_stop name w); simplify_eq; constructor.
  - assert (Hw : w' = (apply_policy name pol code w).2)
      by (by rewrite Hstep).
    rewrite Hw, apply_policy_queues. constructor.
Qed.

(** An action changes a record only by one of the writes of the source. *)
Lemma exec_rewrites scripts a s n :
  rewrites (dom (queues (sys_world (exec scripts a s))))
           (processes (sys_world s) !! n)
           (processes (sys_world (exec scripts a s)) !! n).
Proof.
  destruct a as [|name|name alive timely|name|name|q|name q|t o].
  - change (sys_world (exec scripts AIndex s))
      with (index scripts (sys_world s)).2.
    rewrite index_lookup.
    destruct (processes (sys_world s) !! n); [constructor|].
    destruct (scripts !! n); constructor.
  - simpl. unfold start_script.
    destruct (scripts !! name) as [m|]; [|constructor].
    case_bool_decide; [constructor|].
    destruct (s_path m); simpl.
    + unfold store; simpl. rewrite lookup_insert_eq. simpl.
      rewrite insert_insert_eq. apply insert_rewrites. constructor.
    + apply insert_rewrites. constructor.
  - simpl. unfold stop_mark.
    destruct (processes (sys_world s) !! name) as [p|] eqn:Hp;
      [|constructor].
    simpl. rewrite stop_signal_processes. simpl.
    apply insert_rewrites. rewrite Hp. constructor.
  - simpl. unfold stop_finish.
    destruct (store name _ (sys_world s)) as [w'|] eqn:Hs; [|constructor].
    eapply store_rewrites; [|exact Hs]. intros; constructor.
  - simpl. apply insert_rewrites.
    unfold get_record. apply rw_subscribe.
    rewrite dom_insert_L. apply elem_of_union_l. by apply elem_of_singleton.
  - constructor.
  - simpl. unfold ws_unsubscribe.
    destruct (processes (sys_world s) !! name) as [p|] eqn:Hp;
      [|constructor].
    destruct (subscribers p) as [subs|] eqn:Hsubs; [|constructor].
    case_bool_decide; [|constructor].
    simpl. apply insert_rewrites. rewrite Hp. by constructor.
  - simpl. unfold step_thread.
    destruct (sys_threads s !! t) as [th|]; [|constructor].
    destruct (monitor_step _ _ _ _ _ _) as [[at' w']|] eqn:Hstep;
      [|constructor].
    by eapply monitor_step_rewrites.
Qed.

Lemma start_script_queues scripts name s :
  queues (sys_world (start_script scripts name s).2) = queues (sys_world s).
Proof.
  unfold start_script. destruct (scripts !! name) as [m|]; [|done].
  case_bool_decide; [done|]. destruct (s_path m); [|done]. simpl.
  unfold store; simpl. by rewrite lookup_insert_eq.
Qed.

Lemma stop_signal_queues proc alive timely w :
  queues (stop_signal proc alive timely w) = queues w.
Proof. by destruct proc, alive, timely. Qed.

(** An action changes a queue only by creating it or offering it a line. *)
Lemma exec_requeues scripts a s q :
  requeues (queues (sys_world s) !! q)
           (queues (sys_world (exec scripts a s)) !! q).
Proof.
  destruct a as [|name|name alive timely|name|name|q0|name q0|t o].
  - constructor.
  - simpl. rewrite start_script_queues. constructor.
  - simpl. unfold stop_mark.
    destruct (processes (sys_world s) !! name); [|constructor].
    simpl. rewrite stop_signal_queues. constructor.
  - simpl. unfold stop_finish, store.
    destruct (processes (sys_world s) !! name); constructor.
  - simpl. set (q0 := fresh (dom (queues (sys_world s)))).
    destruct (decide (q = q0)) as [->|Hne].
    + rewrite lookup_insert_eq.
      assert (Hfresh : queues (sys_world s) !! q0 = None)
        by apply not_elem_of_dom, is_fresh.
      rewrite Hfresh. constructor.
    + rewrite lookup_insert_ne by done. constructor.
  - constructor.
  - simpl. unfold ws_unsubscribe.
    destruct (processes (sys_world s) !! name) as [p|]; [|constructor].
    destruct (subscribers p); [|constructor].
    case_bool_decide; constructor.
  - simpl. unfold step_thread.
    destruct (sys_threads s !! t) as [th|]; [|constructor].
    destruct (monitor_step _ _ _ _ _ _) as [[at' w']|] eqn:Hstep;
      [|constructor].
    by eapply monitor_step_requeues.
Qed.

(** ** Invariants *)

Lemma record_ok_empty : record_ok empty_pinfo.
Proof. by split. Qed.

Lemma append_output_bound out line :
  Z.of_nat (length (append_output out line)) ≤ OUTPUT_CAP.
Proof.
  unfold append_output. rewrite slice_from_neg_length by done. lia.
Qed.

Lemma record_ok_default o :
  (∀ p, o = Some p → record_ok p) → record_ok (default empty_pinfo o).
Proof. destruct o; simpl; [by auto|]. intros _. apply record_ok_empty. Qed.

(** Each write of the source keeps a record well formed. *)
Lemma rewrites_record_ok Q o o' :
  rewrites Q o o' →
  (∀ p, o = Some p → record_ok p) →
  ∀ p', o' = Some p' → record_ok p'.
Proof.
  intros Hrw Hok p' Hp'.
  destruct Hrw; simplify_eq; try (by apply Hok).
  - split; simpl; [|done|done]. intros v [= <-]. right. by left.
  - apply record_ok_default in Hok. destruct Hok as [Hs Hr Ho].
    split; simpl; [done|done|]. by intros out [= <-].
  - apply record_ok_default in Hok. destruct Hok as [Hs Hr Ho].
    split; simpl; [done|done|]. by intros out [= <-].
  - destruct (Hok p eq_refl) as [Hs Hr Ho]. by split.
  - destruct (Hok p eq_refl) as [Hs Hr Ho]. split; simpl; [|done|done].
    intros v [= <-]. right. by left.
  - destruct (Hok p eq_refl) as [Hs Hr Ho]. split; simpl; [|done|done].
    intros v [= <-]. right. by right.
  - destruct (Hok p eq_refl) as [Hs Hr Ho]. unfold record_launch; simpl.
    destruct (output p) as [out|] eqn:Hout; split; simpl.
    + intros v [= <-]. by left.
    + eauto.
    + rewrite Hout. intros out' [= <-]. by apply Ho.
    + intros v [= <-]. by left.
    + eauto.
    + by intros out' [= <-].
  - destruct (Hok p eq_refl) as [Hs Hr Ho]. split; simpl; [done|done|].
    intros out' [= <-]. apply append_output_bound.
  - destruct (Hok p eq_refl) as [Hs Hr Ho]. by split.
  - apply record_ok_default in Hok. destruct Hok as [Hs Hr Ho]. by split.
  - destruct (Hok p eq_refl) as [Hs Hr Ho]. by split.
Qed.

Lemma offered_length line qu :
  queue_ok qu → queue_ok (offered line qu).
Proof.
  intros [Hm Hl]. destruct (full qu) eqn:Hf.
  - by rewrite offered_full.
  - rewrite offered_room by done. split; simpl; [done|].
    rewrite full_cap in Hf by done. apply bool_decide_eq_false in Hf.
    rewrite length_app. simpl. lia.
Qed.

Lemma requeues_queue_ok o o' :
  requeues o o' →
  (∀ qu, o = Some qu → queue_ok qu) →
  ∀ qu', o' = Some qu' → queue_ok qu'.
Proof.
  intros Hrq Hok qu' Hqu'.
  destruct Hrq; simplify_eq.
  - by apply Hok.
  - by split.
  - by apply offered_length, Hok.
Qed.

Lemma requeues_dom scripts a s :
  dom (queues (sys_world s)) ⊆ dom (queues (sys_world (exec scripts a s))).
Proof.
  intros q Hq. apply elem_of_dom in Hq as [qu Hqu]. apply elem_of_dom.
  pose proof (exec_requeues scripts a s q) as Hrq. rewrite Hqu in Hrq.
  inversion Hrq; eauto.
Qed.

Lemma rewrites_subscribers Q0 Q o o' :
  rewrites Q o o' →
  Q0 ⊆ Q →
  (∀ p subs, o = Some p → subscribers p = Some subs → subs ⊆ Q0) →
  ∀ p' subs', o' = Some p' → subscribers p' = Some subs' → subs' ⊆ Q.
Proof.
  intros Hrw HQ Hok p' subs' Hp' Hs'.
  assert (Hdef : ∀ subs, subscribers (default empty_pinfo o) = Some subs →
                         subs ⊆ Q).
  { intros subs Hsubs. destruct o as [p|]; simpl in Hsubs; [|done].
    etrans; [by eapply Hok|done]. }
  assert (Hdef' : default ∅ (subscribers (default empty_pinfo o)) ⊆ Q).
  { destruct (subscribers (default empty_pinfo o)) eqn:Hsubs; simpl;
      [by apply Hdef|apply empty_subseteq]. }
  destruct Hrw; simplify_eq; simpl in *; simplify_eq;
    try (by etrans; [eapply Hok|]); try (by apply Hdef).
  - apply empty_subseteq.
  - done.
  - done.
  - rewrite record_launch_keeps in Hs' by done. by etrans; [eapply Hok|].
  - apply union_subseteq. split; [by apply singleton_subseteq_l|done].
  - apply subseteq_difference_l. etrans; [by eapply Hok|done].
Qed.

Lemma world_ok_empty : world_ok empty_world.
Proof. split_and!; intros *; simpl; by rewrite lookup_empty. Qed.

Lemma exec_world_ok scripts a s :
  world_ok (sys_world s) → world_ok (sys_world (exec scripts a s)).
Proof.
  intros (Hrec & Hq & Hsubs). split_and!.
  - intros n p' Hp'.
    eapply rewrites_record_ok; [apply (exec_rewrites scripts a s n)| |done].
    intros p Hp. by eapply Hrec.
  - intros q qu' Hqu'.
    eapply requeues_queue_ok; [apply (exec_requeues scripts a s q)| |done].
    intros qu Hqu. by eapply Hq.
  - intros n p' subs' Hp' Hs'.
    eapply rewrites_subscribers;
      [apply (exec_rewrites scripts a s n)|apply requeues_dom| |done|done].
    intros p subs Hp Hs. by eapply Hsubs.
Qed.

Lemma exec_all_world_ok scripts acts s :
  world_ok (sys_world s) → world_ok (sys_world (exec_all scripts acts s)).
Proof.
  revert s. induction acts as [|a acts IH]; intros s Hok; [done|].
  simpl. apply IH. by apply exec_world_ok.
Qed.

Lemma run_service_world_ok steps s :
  world_ok (sys_world s) → world_ok (sys_world (run_service steps s)).
Proof.
  revert s. induction steps as [|[scripts a] steps IH]; intros s Hok; [done|].
  simpl. apply IH. by apply exec_world_ok.
Qed.

Lemma reachable_world_ok steps :
  world_ok (sys_world (run_service steps initial_system)).
Proof. apply run_service_world_ok, world_ok_empty. Qed.

(** X1.  In every state the service can reach, the status stored for a name
    is absent or one of the three words [running], [stopped], [error]. *)
Theorem reachable_status_words
    (steps : list (gmap string script_meta * action)) (n : string) :
  field status n (sys_world (run_service steps initial_system))
  ∈ [None; Some "running"; Some "stopped"; Some "error"]%string.
Proof.
  destruct (reachable_world_ok steps) as (Hrec & _ & _).
  unfold field, get_record.
  destruct (processes _ !! n) as [p|] eqn:Hp; simpl; [|by left].
  destruct (status p) as [v|] eqn:Hv; [|by left].
  destruct (ok_status p (Hrec n p Hp) v Hv) as [-> | [-> | ->]];
    repeat (first [by left|right]).
Qed.

(** X2.  In every state the service can reach, a record whose status is
    [running] has a start time and a process handle. *)
Theorem running_has_child_and_start_time
    (steps : list (gmap string script_meta * action)) (n : string) :
  let w := sys_world (run_service steps initial_system) in
  field status n w = Some "running"%string →
  is_Some (field start_time n w) ∧ is_Some (field process n w).
Proof.
  intros w. destruct (reachable_world_ok steps) as (Hrec & _ & _).
  unfold field, get_record. fold w in Hrec.
  destruct (processes w !! n) as [p|] eqn:Hp; simpl; [|done].
  apply (ok_running p (Hrec n p Hp)).
Qed.

Lemma running_has_child_and_start_time_witness :
  let steps :=
    [(job_scripts "never", AStart "job");
     (job_scripts "never", AStep 0%nat Tau);
     (job_scripts "never", AStep 0%nat (PopenOk 100 1%positive));
     (job_scripts "never", AStep 0%nat Tau)] in
  let w := sys_world (run_service steps initial_system) in
  is_Some (field start_time "job" w) ∧ is_Some (field process "job" w).
Proof.
  intros steps w.
  apply (running_has_child_and_start_time steps "job"). by vm_compute.
Defined.

(** X3.  In every state the service can reach, the output stored for any
    name is at most 20000 characters long. *)
Theorem stored_output_never_exceeds_cap
    (steps : list (gmap string script_meta * action)) (n : string) :
  let w := sys_world (run_service steps initial_system) in
  Z.of_nat (length (default [] (field output n w))) ≤ 20000.
Proof.
  intros w. destruct (reachable_world_ok steps) as (Hrec & _ & _).
  unfold field, get_record. fold w in Hrec.
  destruct (processes w !! n) as [p|] eqn:Hp; simpl; [|done].
  destruct (output p) as [out|] eqn:Hout; simpl; [|done].
  apply (ok_output p (Hrec n p Hp) out Hout).
Qed.

(** X4.  In every state the service can reach, every subscriber queue is
    bounded at 1000 lines and holds at most 1000, and every queue a
    subscriber set mentions exists. *)
Theorem subscriber_queues_bounded
    (steps : list (gmap string script_meta * action)) (n : string) (q : qid) :
  let w := sys_world (run_service steps initial_system) in
  from_option (λ qu, maxsize qu = 1000
                     ∧ Z.of_nat (length (items qu)) ≤ 1000)
              True (queues w !! q)
  ∧ snapshot_subscribers n w ⊆ dom (queues w).
Proof.
  intros w. destruct (reachable_world_ok steps) as (_ & Hq & Hsubs).
  fold w in Hq, Hsubs. split.
  - destruct (queues w !! q) as [qu|] eqn:Hqu; simpl; [|done].
    apply (Hq q qu Hqu).
  - unfold snapshot_subscribers, get_record.
    destruct (processes w !! n) as [p|] eqn:Hp; simpl;
      [|apply empty_subseteq].
    destruct (subscribers p) as [subs|] eqn:Hs; simpl;
      [|apply empty_subseteq].
    by eapply Hsubs.
Qed.

(** ** Records persist and loops do not trip over them *)

Lemma rewrites_Some Q p o' :
  rewrites Q (Some p) o' →
  ∃ p', o' = Some p' ∧ (is_Some (output p) → is_Some (output p')).
Proof.
  inversion 1; subst; simpl; eexists; (split; [reflexivity|]);
    simpl; eauto.
  unfold record_launch; simpl.
  destruct (output p) eqn:Hout; simpl; rewrite ?Hout; eauto.
Qed.

Lemma exec_keeps_record scripts a s n p :
  processes (sys_world s) !! n = Some p →
  ∃ p', processes (sys_world (exec scripts a s)) !! n = Some p'
        ∧ (is_Some (output p) → is_Some (output p')).
Proof.
  intros Hp. pose proof (exec_rewrites scripts a s n) as Hrw.
  rewrite Hp in Hrw. apply rewrites_Some in Hrw as (p' & Hp' & Hout). eauto.
Qed.

(** X5.  No action ever removes a record from the registry: a name that has
    a record keeps one through any run. *)
Theorem records_never_deleted
    (steps : list (gmap string script_meta * action)) (s : system)
    (n : string) :
  is_Some (processes (sys_world s) !! n) →
  is_Some (processes (sys_world (run_service steps s)) !! n).
Proof.
  revert s. induction steps as [|[scripts a] steps IH]; intros s Hn; [done|].
  simpl. apply IH. destruct Hn as [p Hp].
  destruct (exec_keeps_record scripts a s n p Hp) as (p' & Hp' & _). eauto.
Qed.

Lemma records_never_deleted_witness :
  is_Some
    (processes
       (sys_world
          (run_service
             [(job_scripts "never", AStopMark "job" false false);
              (∅, AIndex); (∅, AStart "job");
              (∅, AUnsubscribe "job" 1%positive)]
             (mkSystem (job_world "never") [])))
     !! "job"%string).
Proof.
  apply records_never_deleted. vm_compute. eauto.
Defined.

(** A step of a loop whose record exists (with an output while it reads a
    child) ends in an exception only when the step's observation is a failed
    launch or undecodable output, and leaves the record in place (with an
    output when the loop goes on to read). *)
Lemma monitor_step_thread_ok name cmd pol o at_ w at' w' p :
  processes w !! name = Some p →
  (streaming at_ = true → is_Some (output p)) →
  monitor_step name cmd pol o at_ w = Some (at', w') →
  (∀ e, at' = Raised e →
        (∃ now, at_ = L63 false ∧ o = PopenFails now e)
        ∨ (∃ proc, at_ = L81 proc ∧ o = StdoutUndecodable
                   ∧ e = UnicodeDecodeError))
  ∧ ∃ p', processes w' !! name = Some p'
          ∧ (streaming at' = true → is_Some (output p')).
Proof.
  intros Hp Hout Hstep.
  destruct at_ as [|[]| | | | | |? []| | | |]; destruct o; simpl in Hstep;
    try discriminate Hstep;
    unfold read_should_stop, then_, store, record_line, apply_policy, store
      in Hstep;
    rewrite ?Hp in Hstep; simpl in Hstep.
  - simplify_eq. split; [done|]. eauto.
  - simplify_eq. split; [done|]. simpl. rewrite lookup_insert_eq. eauto.
  - simplify_eq. split; [done|]. eauto.
  - simplify_eq. split; [intros e' [= <-]; eauto|]. eauto.
  - simplify_eq. split; [done|]. simpl. rewrite lookup_insert_eq.
    eexists. split; [done|]. intros _. unfold record_launch; simpl.
    destruct (output p) eqn:Ho; simpl; rewrite ?Ho; eauto.
  - destruct (Hout eq_refl) as [out Ho]. rewrite Ho in Hstep.
    simplify_eq. split; [done|]. simpl. rewrite lookup_insert_eq. eauto.
  - simplify_eq. split; [intros e' [= <-]; eauto|]. eauto.
  - simplify_eq. split; [done|]. simpl. rewrite lookup_insert_eq. eauto.
  - simplify_eq. split; [done|]. eauto.
  - simplify_eq. split; [done|]. eauto.
  - simplify_eq. split; [done|]. eauto.
  - simplify_eq. split; [done|]. simpl. rewrite lookup_insert_eq. eauto.
  - split.
    + intros e ->. repeat case_match; simplify_eq.
    + repeat case_match; simplify_eq; simpl; rewrite lookup_insert_eq; eauto.
  - simplify_eq. split; [done|]. eauto.
  - simplify_eq. split; [done|]. eauto.
Qed.

Lemma thread_ok_mono F F' w th :
  F ⊆ F' → thread_ok F w th → thread_ok F' w th.
Proof.
  intros HF [Hraised Hrec]. split; [|done]. intros e He. apply HF; auto.
Qed.

Lemma thread_ok_exec scripts a s F th :
  thread_ok F (sys_world s) th →
  thread_ok F (sys_world (exec scripts a s)) th.
Proof.
  intros [Hraised (p & Hp & Hout)]. split; [done|].
  destruct (exec_keeps_record scripts a s _ p Hp) as (p' & Hp' & Hout').
  exists p'. split; [done|]. auto.
Qed.

Lemma start_script_threads scripts name s :
  sys_threads (start_script scripts name s).2 = sys_threads s
  ∨ ∃ cmd pol,
      sys_threads (start_script scripts name s).2
      = sys_threads s ++ [mkThread name cmd pol L61]
      ∧ is_Some (processes (sys_world (start_script scripts name s).2)
                 !! name).
Proof.
  unfold start_script. destruct (scripts !! name) as [m|]; [|by left].
  case_bool_decide; [by left|]. destruct (s_path m); [|by left].
  unfold store; simpl. rewrite lookup_insert_eq. simpl.
  right. eexists _, _. split; [reflexivity|]. rewrite lookup_insert_eq. eauto.
Qed.

Lemma exec_threads scripts a s :
  (∀ name, a ≠ AStart name) → (∀ t o, a ≠ AStep t o) →
  sys_threads (exec scripts a s) = sys_threads s.
Proof.
  intros Hstart Hstep.
  destruct a as [|name|name alive timely|name|name|q|name q|t o]; simpl;
    try done.
  - by destruct (Hstart name).
  - unfold stop_mark. by destruct (processes _ !! name).
  - by destruct (Hstep t o).
Qed.

(** Each action keeps every supervisor thread in good standing, what the
    action made a thread observe being added to that thread's account. *)
Lemma exec_system_ok scripts a s F :
  system_ok F s →
  system_ok (λ t, F t ++ observed_failure t a s) (exec scripts a s).
Proof.
  intros Hok.
  assert (Hold : ∀ t th, sys_threads s !! t = Some th →
                         thread_ok (F t ++ observed_failure t a s)
                                   (sys_world (exec scripts a s)) th).
  { intros t th Hth. apply thread_ok_exec.
    eapply thread_ok_mono; [|by apply Hok].
    intros e He. apply elem_of_app. by left. }
  destruct a as [|name|name alive timely|name|name|q|name q|t0 o];
    try (intros t th; rewrite exec_threads by done; apply Hold).
  - change (exec scripts (AStart name) s) with (start_script scripts name s).2
      in *.
    destruct (start_script_threads scripts name s)
      as [Hsame|(cmd & pol & Happ & [p Hp])]; intros t th.
    + rewrite Hsame. apply Hold.
    + rewrite Happ. intros Hth.
      apply lookup_app_Some in Hth as [Hth|[_ Hth]]; [by apply Hold|].
      apply list_lookup_singleton_Some in Hth as [_ <-].
      split; [done|]. simpl. exists p. by split.
  - change (exec scripts (AStep t0 o) s) with (step_thread t0 o s) in *.
    unfold step_thread in *.
    destruct (sys_threads s !! t0) as [th0|] eqn:Hth0; [|exact Hold].
    destruct (monitor_step _ _ _ _ _ _) as [[at' w']|] eqn:Hstep;
      [|exact Hold].
    simpl in *. intros t th Hth. simpl in Hth.
    destruct (decide (t = t0)) as [->|Hne].
    + rewrite list_lookup_insert_eq in Hth
        by (by eapply lookup_lt_Some).
      injection Hth as <-.
      destruct (Hok t0 th0 Hth0) as [_ (p & Hp & Hout)].
      destruct (monitor_step_thread_ok _ _ _ _ _ _ _ _ _ Hp Hout Hstep)
        as [Hraised Hrec].
      split; [|done]. simpl. intros e He. apply elem_of_app. right.
      destruct (Hraised e He) as [(now & Hat & ->)|(proc & Hat & -> & ->)];
        simpl; rewrite bool_decide_eq_true_2 by done;
        rewrite Hth0; simpl; rewrite Hat;
        by apply list_elem_of_singleton.
    + rewrite list_lookup_insert_ne in Hth by done. by apply Hold.
Qed.

Lemma run_service_system_ok steps s F :
  system_ok F s →
  system_ok (λ t, F t ++ observed_failures t steps s) (run_service steps s).
Proof.
  revert s F. induction steps as [|[scripts a] steps IH]; intros s F Hok.
  - intros t th Hth. simpl. rewrite app_nil_r. by apply Hok.
  - intros t th Hth. simpl in Hth.
    pose proof (IH _ _ (exec_system_ok scripts a s F Hok) t th Hth) as Hthread.
    simpl in Hthread. cbn [observed_failures fst snd].
    by rewrite app_assoc.
Qed.

(** X6.  In any run of the service from its start, the registry lookups of
    a supervisor loop never fail: the record of every loop exists
    throughout, and has an output whenever the loop is reading its child.
    So a step ends a loop with an exception only in two ways: the loop
    stands at its launch and [subprocess.Popen] raises (the exception is
    that one), or it stands at the read of its child's output and the
    output does not decode ([UnicodeDecodeError]).  A loop that has ended
    with an exception ended with one it met itself in one of these two
    ways, earlier in the run. *)
Theorem loop_lookups_never_fail
    (steps : list (gmap string script_meta * action))
    (t : thread_id) (th : mthread) (o : obs) :
  let s := run_service steps initial_system in
  sys_threads s !! t = Some th →
  is_Some (processes (sys_world s) !! t_name th)
  ∧ (streaming (t_pc th) = true →
     is_Some (field output (t_name th) (sys_world s)))
  ∧ (∀ at' w' e,
       monitor_step (t_name th) (t_cmd th) (t_policy th) o (t_pc th)
                    (sys_world s) = Some (at', w') →
       at' = Raised e →
       (∃ now, t_pc th = L63 false ∧ o = PopenFails now e)
       ∨ (∃ proc, t_pc th = L81 proc ∧ o = StdoutUndecodable
                  ∧ e = UnicodeDecodeError))
  ∧ (∀ e, t_pc th = Raised e →
          e ∈ observed_failures t steps initial_system).
Proof.
  intros s Hth.
  assert (Hok : system_ok
                  (λ t, [] ++ observed_failures t steps initial_system) s).
  { apply run_service_system_ok. by intros t' th' Hnil. }
  destruct (Hok t th Hth) as [Hraised (p & Hp & Hout)].
  split_and!; [eauto| | |done].
  - unfold field. by rewrite (get_record_Some _ _ _ Hp).
  - intros at' w' e Hstep He.
    by destruct (monitor_step_thread_ok _ _ _ _ _ _ _ _ _ Hp Hout Hstep)
      as [Hr _]; apply Hr.
Qed.

Lemma loop_lookups_never_fail_witness :
  let steps :=
    [(job_scripts "always", AStart "job");
     (job_scripts "always", AStep 0%nat (PopenFails 99 (KeyError "x")));
     (job_scripts "always", AStep 0%nat Tau);
     (job_scripts "always", AStep 0%nat (PopenOk 100 1%positive));
     (job_scripts "always", AStep 0%nat Tau);
     (job_scripts "always", AStep 0%nat StdoutUndecodable)] in
  ∃ th,
    sys_threads (run_service steps initial_system) !! 0%nat = Some th
    ∧ t_pc th = Raised UnicodeDecodeError
    ∧ observed_failures 0%nat steps initial_system = [UnicodeDecodeError]
    ∧ is_Some (processes (sys_world (run_service steps initial_system))
               !! "job"%string).
Proof.
  intros steps.
  exists (mkThread "job" job_cmd "always" (Raised UnicodeDecodeError)).
  assert (Hth : sys_threads (run_service steps initial_system) !! 0%nat
                = Some (mkThread "job" job_cmd "always"
                                 (Raised UnicodeDecodeError)))
    by (by vm_compute).
  destruct (loop_lookups_never_fail steps 0%nat _ Tau Hth)
    as (Hrec & _ & _ & Hraised).
  split; [exact Hth|]. split; [reflexivity|]. split; [|exact Hrec].
  pose proof (Hraised UnicodeDecodeError eq_refl) as Hin.
  by vm_compute.
Defined.

(** ** Launch and exit code *)

(** A step of the loop other than the recording of an exit leaves the
    stored exit code alone. *)
Lemma monitor_step_keeps_returncode name cmd pol o at_ w at' w' n :
  (∀ proc code, at_ = L81 proc → o ≠ StdoutEof code) →
  monitor_step name cmd pol o at_ w = Some (at', w') →
  field returncode n w' = field returncode n w.
Proof.
  intros Hexit Hstep. symmetry.
  assert (Hstatus : ∀ v, respects returncode eq (set_status v))
    by (by intros v p).
  assert (Hlaunch : ∀ now proc,
             respects returncode eq (record_launch now proc))
    by (intros now proc p; symmetry; by apply record_launch_keeps).
  destruct at_ as [|[]| | | | | |? []| | | |]; destruct o; simpl in Hstep;
    try discriminate Hstep; simplify_eq;
    try done;
    try (by destruct (Hexit proc code eq_refl));
    try (eapply (then_respects returncode eq); [|exact Hstep];
         intros _; auto).
  - by destruct (read_should_stop name w); simplify_eq.
  - unfold then_, record_line in Hstep.
    destruct (processes w !! name) as [p|] eqn:Hp; [|by simplify_eq].
    destruct (output p); simplify_eq; [|done].
    rewrite <- (get_record_Some _ _ _ Hp).
    by apply (update_respects returncode eq (set_output _)).
  - by destruct (read_should_stop name w); simplify_eq.
  - assert (Hw : w' = (apply_policy name pol code w).2)
      by (by rewrite Hstep).
    rewrite Hw. clear Hstep Hw. unfold apply_policy.
    case_bool_decide.
    + destruct (store name (set_status "error") w) as [w1|] eqn:Hs; [|done].
      assert (field returncode n w = field returncode n w1)
        by (eapply (store_respects returncode eq); [|exact Hs]; auto).
      destruct (restarts_on_failure pol); [done|]. by case_bool_decide.
    + destruct (store name (set_status "stopped") w) as [w1|] eqn:Hs; [|done].
      assert (field returncode n w = field returncode n w1)
        by (eapply (store_respects returncode eq); [|exact Hs]; auto).
      by case_bool_decide.
Qed.

(** One action changes the stored exit code of [n] exactly when it records
    an exit for [n], and then to the code of that exit. *)
Lemma exec_returncode scripts a s F n :
  system_ok F s →
  field returncode n (sys_world (exec scripts a s))
  = match recorded_exit n a s with
    | Some code => Some code
    | None => field returncode n (sys_world s)
    end.
Proof.
  intros Hok. destruct (is_loop_step a) eqn:Hloop.
  - destruct a as [| | | | | | |t o]; try discriminate Hloop. simpl.
    unfold step_thread.
    destruct (sys_threads s !! t) as [th|] eqn:Hth; [|by destruct o].
    destruct (Hok t th Hth) as [_ (p & Hp & _)].
    destruct (monitor_step _ _ _ _ _ _) as [[at' w']|] eqn:Hstep.
    + destruct (t_pc th) eqn:Hpc; destruct o;
        try (by eapply monitor_step_keeps_returncode; [|exact Hstep]).
      simpl in Hstep. unfold then_, store in Hstep. rewrite Hp in Hstep.
      simplify_eq. simpl. case_bool_decide as Hn.
      * subst n. by rewrite field_store_eq.
      * by rewrite field_store_ne.
    + by destruct (t_pc th) eqn:Hpc; destruct o.
  - assert (Hnone : recorded_exit n a s = None)
      by (by destruct a; try discriminate Hloop).
    rewrite Hnone. by apply handler_keeps.
Qed.

(** The stored exit code at the end of a run is the last one the run
    recorded, and the one from before the run if it recorded none. *)
Lemma run_service_returncode steps s F n :
  system_ok F s →
  field returncode n (sys_world (run_service steps s))
  = match last (exit_log n steps s) with
    | Some code => Some code
    | None => field returncode n (sys_world s)
    end.
Proof.
  revert s F. induction steps as [|[scripts a] steps IH]; intros s F Hok;
    [done|].
  change (run_service ((scripts, a) :: steps) s)
    with (run_service steps (exec scripts a s)).
  rewrite (IH _ _ (exec_system_ok scripts a s F Hok)).
  cbn [exit_log fst snd]. rewrite last_app.
  destruct (last (exit_log n steps (exec scripts a s))); [done|].
  rewrite (exec_returncode scripts a s F n Hok).
  by destruct (recorded_exit n a s).
Qed.

(** C5, as the code has it.  At a launch the loop logs the new process
    (lines 70-72) and then, in one locked block (lines 73-77), stores the
    process handle, status [running] and the start time, and gives the
    output an empty text if it had none.  The exit code is not written at a
    launch: it keeps the value it had, as do the stop flag, the policy, the
    thread and the subscribers.  The exit code is written only where a loop
    records the exit of its child (line 89): in every state the service
    reaches from its start, whatever the status, the stored exit code of a
    name is the code of the last exit recorded for that name, and it is
    absent only if no exit has been recorded for it. *)
Theorem launch_records_start (name : string) (cmd : list string)
    (pol : string) (now : timestamp) (proc : handle) (w : world) (p : pinfo)
    (steps : list (gmap string script_meta * action)) :
  processes w !! name = Some p →
  (∃ w',
     run_monitor name cmd pol [PopenOk now proc; Tau] (L63 false) w
       = (L81 proc, w')
     ∧ effects w' = effects w ++ [Popen cmd proc]
     ∧ field process name w' = Some proc
     ∧ field status name w' = Some "running"%string
     ∧ field start_time name w' = Some now
     ∧ field output name w' = Some (default [] (output p))
     ∧ field returncode name w' = returncode p
     ∧ field should_stop name w' = should_stop p
     ∧ field policy name w' = policy p
     ∧ field thread name w' = thread p
     ∧ field subscribers name w' = subscribers p)
  ∧ field returncode name (sys_world (run_service steps initial_system))
    = last (exit_log name steps initial_system).
Proof.
  intros Hp. split.
  - eexists. simpl. unfold store; simpl. rewrite Hp. simpl.
    split; [reflexivity|]. unfold field, get_record; simpl.
    rewrite lookup_insert_eq; simpl. unfold record_launch; simpl.
    destruct (output p) eqn:Hout; simpl; by rewrite ?Hout.
  - rewrite (run_service_returncode steps initial_system (λ _, []) name)
      by (by intros t th Hnil).
    by destruct (last _).
Qed.

Lemma launch_records_start_witness :
  let steps :=
    map (pair (job_scripts "always"))
        ([AStart "job"]
         ++ map (AStep 0%nat)
                [Tau; PopenOk 100 1%positive; Tau; StdoutEof 1; Tau; Tau;
                 Tau; Tau; PopenOk 103 2%positive; Tau]) in
  (∃ w',
     run_monitor "job" job_cmd "always" [PopenOk 100 1%positive; Tau]
                 (L63 false) (job_world "always") = (L81 1%positive, w')
     ∧ field status "job" w' = Some "running"%string
     ∧ field start_time "job" w' = Some 100
     ∧ field returncode "job" w' = None)
  ∧ field status "job" (sys_world (run_service steps initial_system))
    = Some "running"%string
  ∧ field returncode "job" (sys_world (run_service steps initial_system))
    = last (exit_log "job" steps initial_system)
  ∧ last (exit_log "job" steps initial_system) = Some 1.
Proof.
  intros steps.
  destruct (launch_records_start "job" job_cmd "always" 100 1%positive
              (job_world "always") (initial_record (job_meta "always"))
              steps eq_refl)
    as [(w' & Hrun & _ & _ & Hst & Hti & _ & Hrc & _) Hlast].
  split; [exists w'; by split_and!|].
  split; [by vm_compute|]. split; [exact Hlast|by vm_compute].
Defined.

(** C5 fails as stated: under policy [always], a first child that exits
    with code 1 is followed, after the pause, by a second launch; the record
    then has status [running] together with the exit code 1 of the first
    child, not [None]. *)
Lemma relaunch_keeps_exit_code :
  let schedule :=
    [Tau; PopenOk 100 1%positive; Tau; StdoutEof 1; Tau; Tau; Tau;
     Tau; PopenOk 103 2%positive; Tau] in
  let end_ := run_monitor "job" job_cmd "always" schedule L61
                          (job_world "always") in
  end_.1 = L81 2%positive
  ∧ field status "job" end_.2 = Some "running"%string
  ∧ field returncode "job" end_.2 = Some 1
  ∧ field returncode "job" end_.2 ≠ None.
Proof. by vm_compute. Qed.

(** ** Stop *)

(** The two blocks of [stop_script] and the signalling between them, put
    together. *)
Lemma stop_script_spec name alive timely w p :
  processes w !! name = Some p →
  let r := stop_script name alive timely w in
  r.1 = Return (RedirectResponse ("/script/" +:+ name) 303)
  ∧ processes r.2
    = <[name := set_status "stopped" (set_should_stop true p)]> (processes w)
  ∧ queues r.2 = queues w
  ∧ effects r.2
    = effects w ++ match process p with
                   | Some h =>
                       if alive then
                         if timely then [Terminate h]
                         else [Terminate h; Kill h]
                       else []
                   | None => []
                   end.
Proof.
  intros Hp r. unfold r, stop_script, stop_mark. rewrite Hp.
  unfold stop_finish, store. rewrite stop_signal_processes. simpl.
  rewrite lookup_insert_eq. simpl.
  split_and!.
  - done.
  - rewrite stop_signal_processes. apply insert_insert_eq.
  - by rewrite stop_signal_queues.
  - destruct (process p), alive, timely; simpl;
      by rewrite <- ?app_assoc, ?app_nil_r.
Qed.

(** X7.  [stop_script] on a name that has a record answers with a redirect
    to the script's page and leaves the record changed in two keys only:
    [should_stop] true and [status] [stopped].  The child is signalled only
    if a process handle is stored and the process is still alive: then it
    is asked to terminate, and killed only if it has not exited five seconds
    later.  Queues and all other records are as before. *)
Theorem stop_script_outcome (name : string) (alive timely : bool)
    (w : world) (p : pinfo) :
  processes w !! name = Some p →
  let r := stop_script name alive timely w in
  r.1 = Return (RedirectResponse ("/script/" +:+ name) 303)
  ∧ processes r.2
    = <[name := set_status "stopped" (set_should_stop true p)]> (processes w)
  ∧ queues r.2 = queues w
  ∧ effects r.2
    = effects w ++ match process p with
                   | Some h =>
                       if alive then
                         if timely then [Terminate h]
                         else [Terminate h; Kill h]
                       else []
                   | None => []
                   end.
Proof. apply stop_script_spec. Qed.

Lemma stop_script_outcome_witness :
  let r := stop_script "job" true false running_world in
  field status "job" r.2 = Some "stopped"%string
  ∧ effects r.2 = [Terminate 1%positive; Kill 1%positive].
Proof.
  intros r.
  destruct (stop_script_outcome "job" true false running_world
              (record_launch 100 1%positive
                             (initial_record (job_meta "always"))))
    as (_ & Hprocs & _ & Heff); [reflexivity|].
  fold r in Hprocs, Heff. split; [|exact Heff].
  unfold field, get_record. rewrite Hprocs. reflexivity.
Defined.

Lemma world_eq (a b : world) :
  processes a = processes b →
  queues a = queues b →
  effects a = effects b →
  a = b.
Proof. destruct a, b; simpl. by intros -> -> ->. Qed.

(** X8.  [stop_script] is idempotent: a second stop of the same name, by
    which time the child is no longer alive, changes nothing at all (no
    record, no queue, no further signal), whether or not the name has a
    record. *)
Theorem stop_script_idempotent (name : string) (alive timely timely' : bool)
    (w : world) :
  let once := (stop_script name alive timely w).2 in
  (stop_script name false timely' once).2 = once.
Proof.
  intros once. unfold once.
  destruct (processes w !! name) as [p|] eqn:Hp.
  - destruct (stop_script_spec name alive timely w p Hp)
      as (_ & Hprocs & Hq & Heff).
    set (w1 := (stop_script name alive timely w).2) in *.
    assert (Hp1 : processes w1 !! name
                  = Some (set_status "stopped" (set_should_stop true p)))
      by (by rewrite Hprocs, lookup_insert_eq).
    destruct (stop_script_spec name false timely' w1 _ Hp1)
      as (_ & Hprocs2 & Hq2 & Heff2).
    set (w2 := (stop_script name false timely' w1).2) in *.
    assert (Hsame : processes w2 = processes w1).
    { rewrite Hprocs2. apply insert_id. by rewrite Hp1. }
    assert (Heff' : effects w2 = effects w1).
    { rewrite Heff2. simpl. destruct (process p); by rewrite app_nil_r. }
    by apply world_eq.
  - assert (Hnone : ∀ a t, stop_script name a t w
                           = (Return (RedirectResponse "/" 303), w)).
    { intros a t. unfold stop_script, stop_mark. by rewrite Hp. }
    by rewrite !Hnone.
Qed.

Lemma launches_app es1 es2 :
  launches (es1 ++ es2) = (launches es1 + launches es2)%nat.
Proof.
  induction es1 as [|[] es1 IH]; simpl; [done|by rewrite IH|done..].
Qed.

(** With the stop flag set, a step of the loop never arrives at the point
    where a child is created, and creates a child only if it stood there
    already. *)
Lemma step_after_stop name cmd pol o at_ w at' w' :
  field should_stop name w = Some true →
  monitor_step name cmd pol o at_ w = Some (at', w') →
  field should_stop name w' = Some true
  ∧ at' ≠ L63 false
  ∧ (launches (effects w') ≤ S (launches (effects w)))%nat
  ∧ (at_ ≠ L63 false → launches (effects w') = launches (effects w)).
Proof.
  intros Hflag Hstep. split.
  { refine (monitor_step_respects should_stop stays_set _ _ _ _ _ _ _ _ _ _
              Hstep Hflag).
    apply loop_keeps_should_stop, _. }
  unfold field, get_record in Hflag.
  destruct (processes w !! name) as [p|] eqn:Hp; [|done]. simpl in Hflag.
  destruct at_ as [|[]| | | | | |? []| | | |]; destruct o; simpl in Hstep;
    try discriminate Hstep;
    unfold read_should_stop, then_, store, record_line, apply_policy, store
      in Hstep;
    rewrite ?Hp, ?Hflag in Hstep; simpl in Hstep;
    repeat case_match; simplify_eq; simpl;
    rewrite ?launches_app; simpl; split_and!; intros; try done; lia.
Qed.

(** A step of the loop creates a child exactly when it is taken from line
    63 with the flag read as clear and [subprocess.Popen] returns. *)
Lemma monitor_step_launches name cmd pol o at_ w at' w' :
  monitor_step name cmd pol o at_ w = Some (at', w') →
  launches (effects w')
  = (launches (effects w)
     + match at_, o with
       | L63 false, PopenOk _ _ => 1
       | _, _ => 0
       end)%nat.
Proof.
  intros Hstep.
  destruct at_ as [|[]| | | | | |? []| | | |]; destruct o; simpl in Hstep;
    try discriminate Hstep;
    unfold read_should_stop, then_, store, record_line, apply_policy, store
      in Hstep;
    repeat case_match; simplify_eq; simpl;
    rewrite ?launches_app; simpl; lia.
Qed.

(** What one action that is not a start of [n] does to a thread of [n]
    whose stop flag is set: the thread and the flag stay, and the thread
    does not arrive at the launch. *)
Lemma exec_after_stop scripts a s t th :
  sys_threads s !! t = Some th →
  field should_stop (t_name th) (sys_world s) = Some true →
  a ≠ AStart (t_name th) →
  ∃ th',
    sys_threads (exec scripts a s) !! t = Some th'
    ∧ t_name th' = t_name th
    ∧ field should_stop (t_name th) (sys_world (exec scripts a s)) = Some true
    ∧ (t_pc th' = L63 false → t_pc th = L63 false ∧ launch_by t a s = false).
Proof.
  intros Hth Hflag Hstart.
  assert (Hflag' : field should_stop (t_name th)
                     (sys_world (exec scripts a s)) = Some true).
  { refine (exec_respects should_stop stays_set scripts _ a s _ Hflag).
    by apply sticky_action. }
  destruct a as [|name|name alive timely|name|name|q|name q|t' o].
  1,3,4,5,6,7: exists th; rewrite exec_threads by done; by split_and!.
  - exists th. split_and!; [|done|done|done].
    simpl. unfold start_script.
    repeat case_match; simpl; try done. by apply lookup_app_l_Some.
  - simpl in *. unfold step_thread in *.
    destruct (decide (t' = t)) as [->|Hne].
    + rewrite Hth in *.
      destruct (monitor_step _ _ _ _ _ _) as [[at' w']|] eqn:Hstep.
      * exists (with_pc at' th). simpl.
        rewrite list_lookup_insert_eq by (by eapply lookup_lt_Some).
        split_and!; [done|done|done|].
        intros Hat. exfalso.
        by destruct (step_after_stop _ _ _ _ _ _ _ _ Hflag Hstep)
          as (_ & Hne & _).
      * exists th. split_and!; [done|done|done|]. intros Hat. split; [done|].
        destruct o; try done. rewrite Hat in Hstep. discriminate Hstep.
    + exists th. split_and!; [|done|done|].
      * destruct (sys_threads s !! t'); [|done].
        destruct (monitor_step _ _ _ _ _ _) as [[at' w']|]; [|done].
        simpl. by rewrite list_lookup_insert_ne.
      * intros Hat. split; [done|]. destruct o; try done.
        by rewrite bool_decide_eq_false_2.
Qed.

(** X9.  As long as no start request for the name intervenes, a stop
    request binds its loops in every interleaving with other handlers,
    other loops and subscribers: the flag stays set and, whatever a loop of
    the name observes, it creates at most one more child, and none at all
    unless it had already read the flag as clear and was about to launch
    (line 63 passed).  Every child a loop creates is counted: a step of the
    loop adds a process to the log exactly when it is such a launch. *)
Theorem stop_request_bounds_launches (scripts : gmap string script_meta)
    (acts : list action) (s : system) (t : thread_id) (th : mthread) :
  sys_threads s !! t = Some th →
  field should_stop (t_name th) (sys_world s) = Some true →
  Forall (λ a, a ≠ AStart (t_name th)) acts →
  (launches_by t scripts acts s ≤ 1)%nat
  ∧ (t_pc th ≠ L63 false → launches_by t scripts acts s = 0%nat)
  ∧ field should_stop (t_name th) (sys_world (exec_all scripts acts s))
    = Some true
  ∧ ∀ o s0,
      launches (effects (sys_world (exec scripts (AStep t o) s0)))
      = (launches (effects (sys_world s0))
         + if launch_by t (AStep t o) s0 then 1 else 0)%nat.
Proof.
  intros Hth Hflag Hacts.
  assert (Hrun : ∀ acts s th,
             sys_threads s !! t = Some th →
             field should_stop (t_name th) (sys_world s) = Some true →
             Forall (λ a, a ≠ AStart (t_name th)) acts →
             (launches_by t scripts acts s ≤ 1)%nat
             ∧ (t_pc th ≠ L63 false → launches_by t scripts acts s = 0%nat)
             ∧ field should_stop (t_name th)
                 (sys_world (exec_all scripts acts s)) = Some true).
  { clear. induction acts as [|a acts IH]; intros s th Hth Hflag Hacts.
    { by split_and!; [simpl; lia| |]. }
    apply Forall_cons in Hacts as [Ha Hacts].
    destruct (exec_after_stop scripts a s t th Hth Hflag Ha)
      as (th' & Hth' & Hname & Hflag' & Hat).
    rewrite <- Hname in Hflag', Hacts.
    destruct (IH _ _ Hth' Hflag' Hacts) as (Hle & Hzero & Hend).
    rewrite Hname in Hend. cbn [launches_by].
    change (exec_all scripts (a :: acts) s)
      with (exec_all scripts acts (exec scripts a s)).
    split_and!; [|intros Hpc|done].
    - destruct (launch_by t a s) eqn:Hl; [|lia].
      rewrite Hzero; [lia|]. intros Hat'.
      destruct (Hat Hat') as [_ Hno]. congruence.
    - assert (Hl : launch_by t a s = false).
      { destruct a as [| | | | | | |t' []]; try done. simpl.
        destruct (decide (t' = t)) as [->|];
          [|by rewrite bool_decide_eq_false_2].
        rewrite Hth, bool_decide_eq_true_2 by done. simpl.
        by destruct (t_pc th) as [|[]| | | | | | | | | |]. }
      rewrite Hl, Hzero; [done|]. intros Hat'. by destruct (Hat Hat'). }
  destruct (Hrun acts s th Hth Hflag Hacts) as (Hle & Hzero & Hend).
  split_and!; [done|done|done|].
  intros o s0. simpl. unfold step_thread.
  destruct (sys_threads s0 !! t) as [th0|] eqn:Hth0; simpl.
  - destruct (monitor_step _ _ _ _ _ _) as [[at' w']|] eqn:Hstep; simpl.
    + rewrite (monitor_step_launches _ _ _ _ _ _ _ _ Hstep).
      destruct o; try (by destruct (t_pc th0) as [|[]| | | | | | | | | |]).
      rewrite bool_decide_eq_true_2 by done.
      by destruct (t_pc th0) as [|[]| | | | | | | | | |].
    + destruct o; try (simpl; lia).
      rewrite bool_decide_eq_true_2 by done.
      destruct (t_pc th0) as [|[]| | | | | | | | | |]; simpl in *;
        try discriminate Hstep; lia.
  - destruct o; simpl; try lia. rewrite andb_false_r. lia.
Qed.

Lemma stop_request_bounds_launches_witness :
  let acts :=
    [AStep 0%nat Tau; AIndex; AStep 0%nat Tau;
     AStep 0%nat (PopenOk 100 1%positive); ASubscribe "job";
     AStep 0%nat Tau] in
  launches_by 0%nat (job_scripts "always") acts stop_requested_system = 0%nat
  ∧ field should_stop "job"
      (sys_world (exec_all (job_scripts "always") acts stop_requested_system))
    = Some true.
Proof.
  intros acts.
  destruct (stop_request_bounds_launches (job_scripts "always") acts
              stop_requested_system 0%nat
              (mkThread "job" job_cmd "always" L61))
    as (_ & Hzero & Hend & _); [reflexivity|reflexivity| |].
  - unfold acts. by repeat constructor.
  - split; [by apply Hzero|exact Hend].
Defined.

(** ** Start *)

Lemma start_script_running scripts name s :
  field status name (sys_world s) = Some "running"%string →
  (start_script scripts name s).2 = s
  ∧ ∃ r, (start_script scripts name s).1 = Return r.
Proof.
  intros Hst. unfold start_script.
  destruct (scripts !! name); [|by eauto].
  rewrite bool_decide_eq_true_2 by done. eauto.
Qed.

(** X10.  While the status of a name is [running], any number of start
    requests for it change nothing: no thread is added, no key is reset, and
    none of the requests fails. *)
Theorem start_while_running_is_noop (scripts : gmap string script_meta)
    (name : string) (s : system) (k : nat) :
  field status name (sys_world s) = Some "running"%string →
  exec_all scripts (replicate k (AStart name)) s = s
  ∧ ∃ r, (start_script scripts name s).1 = Return r.
Proof.
  intros Hst. split; [|by apply start_script_running].
  induction k as [|k IH]; [done|]. simpl.
  by rewrite (proj1 (start_script_running scripts name s Hst)).
Qed.

Lemma start_while_running_is_noop_witness :
  let s := mkSystem running_world [mkThread "job" job_cmd "always"
                                            (L81 1%positive)] in
  exec_all (job_scripts "always") (replicate 3 (AStart "job")) s = s.
Proof.
  intros s.
  apply (start_while_running_is_noop (job_scripts "always") "job" s 3).
  reflexivity.
Defined.

(** What a start that goes through leaves behind. *)
Lemma start_script_spawn scripts name s m path :
  scripts !! name = Some m →
  s_path m = Some path →
  field status name (sys_world s) ≠ Some "running"%string →
  let w := sys_world s in
  let p' := set_thread (length (sys_threads s))
                       (reset_record m (get_record name w)) in
  let cmd := "python3"%string :: path :: default [] (s_args m) in
  (start_script scripts name s).2
  = mkSystem (mkWorld (<[name := p']> (processes w)) (queues w) (effects w))
             (sys_threads s ++ [mkThread name cmd (meta_policy m) L61]).
Proof.
  intros Hm Hpath Hst w p' cmd. unfold start_script. rewrite Hm, Hpath.
  rewrite bool_decide_eq_false_2 by exact Hst.
  unfold store; simpl. rewrite lookup_insert_eq. simpl.
  f_equal. apply world_eq; simpl; [apply insert_insert_eq|done|done].
Qed.

(** A step of the thread that sits at position [length ths]. *)
Lemma step_thread_at ths th rest w o at' w' :
  monitor_step (t_name th) (t_cmd th) (t_policy th) o (t_pc th) w
  = Some (at', w') →
  step_thread (length ths) o (mkSystem w (ths ++ th :: rest))
  = mkSystem w' (ths ++ with_pc at' th :: rest).
Proof.
  intros Hstep. unfold step_thread. simpl.
  rewrite list_lookup_middle by done. rewrite Hstep. f_equal.
  rewrite insert_app_r_alt by done. by rewrite Nat.sub_diag.
Qed.

Lemma record_launch_status now h p :
  status (record_launch now h p) = Some "running"%string.
Proof. unfold record_launch; simpl. by case_match. Qed.

Lemma record_launch_process now h p :
  process (record_launch now h p) = Some h.
Proof. unfold record_launch; simpl. by case_match. Qed.

(** The first three steps of a loop whose stop flag is clear: checkpoint,
    launch, record. *)
Lemma thread_launches scripts ths name cmd pol rest w p now h :
  processes w !! name = Some p →
  default false (should_stop p) = false →
  exec_all scripts
    [AStep (length ths) Tau; AStep (length ths) (PopenOk now h);
     AStep (length ths) Tau]
    (mkSystem w (ths ++ mkThread name cmd pol L61 :: rest))
  = mkSystem
      (mkWorld (<[name := record_launch now h p]> (processes w)) (queues w)
               (effects w ++ [Popen cmd h]))
      (ths ++ mkThread name cmd pol (L81 h) :: rest).
Proof.
  intros Hp Hflag. unfold exec_all. cbn [foldl exec].
  rewrite (step_thread_at ths _ rest w Tau (L63 false) w).
  2:{ simpl. unfold read_should_stop. by rewrite Hp, Hflag. }
  unfold with_pc at 1. cbn [t_name t_cmd t_policy].
  rewrite (step_thread_at ths _ rest w (PopenOk now h) (L73 now h)
                          (emit (Popen cmd h) w)) by done.
  unfold with_pc at 1. cbn [t_name t_cmd t_policy].
  erewrite (step_thread_at ths _ rest (emit (Popen cmd h) w) Tau (L81 h)).
  2:{ simpl. unfold store. simpl. by rewrite Hp. }
  done.
Qed.

(** X11.  A second start request that arrives before the first loop has
    recorded its launch is not held back (the status is not yet [running]):
    it resets the record again and starts a second loop for the same name.
    Both loops then create a child, so two children of one name run at the
    same time; the record keeps the handle of the one recorded last. *)
Theorem double_start_runs_two_children (scripts : gmap string script_meta)
    (name : string) (s : system) (m : script_meta) (path : string)
    (now1 now2 : timestamp) (h1 h2 : handle) :
  scripts !! name = Some m →
  s_path m = Some path →
  field status name (sys_world s) ≠ Some "running"%string →
  let t1 := length (sys_threads s) in
  let t2 := S t1 in
  let cmd := "python3"%string :: path :: default [] (s_args m) in
  let pol := meta_policy m in
  let s' :=
    exec_all scripts
      [AStart name; AStart name;
       AStep t1 Tau; AStep t1 (PopenOk now1 h1); AStep t1 Tau;
       AStep t2 Tau; AStep t2 (PopenOk now2 h2); AStep t2 Tau] s in
  sys_threads s'
  = sys_threads s ++ [mkThread name cmd pol (L81 h1);
                      mkThread name cmd pol (L81 h2)]
  ∧ effects (sys_world s')
    = effects (sys_world s) ++ [Popen cmd h1; Popen cmd h2]
  ∧ field status name (sys_world s') = Some "running"%string
  ∧ field process name (sys_world s') = Some h2.
Proof.
  intros Hm Hpath Hst t1 t2 cmd pol s'.
  set (w := sys_world s) in *.
  set (p1 := set_thread t1 (reset_record m (get_record name w))).
  set (p2 := set_thread t2 (reset_record m p1)).
  set (th := mkThread name cmd pol L61).
  assert (H1 : exec scripts (AStart name) s
               = mkSystem (mkWorld (<[name := p1]> (processes w)) (queues w)
                                   (effects w))
                          (sys_threads s ++ [th])).
  { apply (start_script_spawn scripts name s m path Hm Hpath Hst). }
  assert (H2 : exec scripts (AStart name) (exec scripts (AStart name) s)
               = mkSystem (mkWorld (<[name := p2]> (processes w)) (queues w)
                                   (effects w))
                          (sys_threads s ++ [th; th])).
  { rewrite H1. cbn [exec].
    rewrite (start_script_spawn scripts name _ m path Hm Hpath); simpl.
    - unfold get_record; simpl. rewrite lookup_insert_eq. simpl.
      rewrite insert_insert_eq, length_app. simpl.
      rewrite Nat.add_1_r. by rewrite <- app_assoc.
    - unfold field, get_record; simpl. by rewrite lookup_insert_eq. }
  assert (Hs' : s' = exec_all scripts
                       [AStep t2 Tau; AStep t2 (PopenOk now2 h2); AStep t2 Tau]
                       (exec_all scripts
                          [AStep t1 Tau; AStep t1 (PopenOk now1 h1);
                           AStep t1 Tau]
                          (exec scripts (AStart name)
                                (exec scripts (AStart name) s)))) by done.
  rewrite H2 in Hs'.
  rewrite (thread_launches scripts (sys_threads s) name cmd pol [th] _ p2)
    in Hs'; [|by simpl; rewrite lookup_insert_eq|done].
  change (sys_threads s ++ mkThread name cmd pol (L81 h1) :: [th])
    with (sys_threads s ++ [mkThread name cmd pol (L81 h1)] ++ th :: [])
    in Hs'.
  rewrite app_assoc in Hs'.
  replace t2 with (length (sys_threads s ++ [mkThread name cmd pol (L81 h1)]))
    in Hs' by (rewrite length_app; simpl; unfold t2, t1; lia).
  rewrite (thread_launches scripts _ name cmd pol [] _
             (record_launch now1 h1 p2)) in Hs';
    [|by simpl; rewrite lookup_insert_eq|].
  2:{ by rewrite record_launch_keeps. }
  rewrite Hs'. simpl. split_and!.
  - by rewrite <- app_assoc.
  - by rewrite <- app_assoc.
  - unfold field, get_record; cbn [sys_world processes].
    rewrite lookup_insert_eq. apply record_launch_status.
  - unfold field, get_record; cbn [sys_world processes].
    rewrite lookup_insert_eq. apply record_launch_process.
Qed.

Lemma double_start_runs_two_children_witness :
  let s' :=
    exec_all (job_scripts "never")
      [AStart "job"; AStart "job";
       AStep 0%nat Tau; AStep 0%nat (PopenOk 100 1%positive); AStep 0%nat Tau;
       AStep 1%nat Tau; AStep 1%nat (PopenOk 101 2%positive); AStep 1%nat Tau]
      initial_system in
  effects (sys_world s')
  = [Popen job_cmd 1%positive; Popen job_cmd 2%positive].
Proof.
  intros s'.
  destruct (double_start_runs_two_children (job_scripts "never") "job"
              initial_system (job_meta "never") "job.py" 100 101
              1%positive 2%positive)
    as (_ & Heff & _); [reflexivity|reflexivity|by vm_compute|].
  exact Heff.
Defined.

(** ** [index] and the status snapshot *)

Lemma index_idempotent scripts w :
  processes (index scripts (index scripts w).2).2
  = processes (index scripts w).2.
Proof.
  apply map_eq. intros n. rewrite !index_lookup.
  destruct (processes w !! n); [done|]. by destruct (scripts !! n).
Qed.

(** X12.  [index] gives every configured name that has no record a fresh
    one (status [stopped], stop flag clear, no subscribers, the configured
    policy or [on-failure] when none is configured) and leaves every
    existing record, every queue and the outside untouched; names that are
    neither configured nor known stay without a record.  Doing it again
    changes nothing. *)
Theorem index_initialises_once (scripts : gmap string script_meta)
    (w : world) (n : string) :
  let w' := (index scripts w).2 in
  processes w' !! n
  = match processes w !! n, scripts !! n with
    | Some p, _ => Some p
    | None, Some m =>
        Some (mkPinfo None None (Some "stopped"%string) None None None
                      (Some (default "on-failure"%string (s_policy m)))
                      (Some false) (Some ∅))
    | None, None => None
    end
  ∧ queues w' = queues w
  ∧ effects w' = effects w
  ∧ (index scripts w').2 = w'.
Proof.
  intros w'. split_and!.
  - unfold w'. rewrite index_lookup.
    destruct (processes w !! n); [done|]. by destruct (scripts !! n).
  - done.
  - done.
  - apply world_eq; [apply index_idempotent|done|done].
Qed.

Lemma ws_status_snapshot_lookup scripts w n :
  ws_status_snapshot scripts w !! n
  = (λ _, default "stopped"%string (field status n w)) <$> scripts !! n.
Proof.
  unfold ws_status_snapshot. rewrite map_lookup_imap.
  by destruct (scripts !! n).
Qed.

(** X13.  The [index] page and the [ws_status] snapshot list exactly the
    configured names.  Each is shown with its stored status, or [stopped]
    when it has no record or no status, so creating the missing records
    does not change what [index] shows; and the page is the snapshot
    [ws_status] would send of the state [index] leaves. *)
Theorem index_page_statuses (scripts : gmap string script_meta) (w : world)
    (n : string) :
  ∃ statuses,
    (index scripts w).1 = TemplateResponse "index.html" (IndexCtx statuses)
    ∧ statuses = ws_status_snapshot scripts (index scripts w).2
    ∧ dom statuses = dom scripts
    ∧ ws_status_snapshot scripts w !! n = statuses !! n
    ∧ statuses !! n
      = match scripts !! n with
        | Some _ => Some (default "stopped"%string (field status n w))
        | None => None
        end.
Proof.
  exists (ws_status_snapshot scripts (index scripts w).2).
  assert (Hshown : ws_status_snapshot scripts (index scripts w).2 !! n
                   = match scripts !! n with
                     | Some _ =>
                         Some (default "stopped"%string (field status n w))
                     | None => None
                     end).
  { rewrite ws_status_snapshot_lookup. unfold field, get_record.
    rewrite index_lookup.
    destruct (scripts !! n) as [m|]; simpl; [|done].
    by destruct (processes w !! n). }
  split_and!; [done|done| | |done].
  - apply set_eq. intros k. rewrite !elem_of_dom.
    rewrite ws_status_snapshot_lookup. by rewrite fmap_is_Some.
  - rewrite Hshown, ws_status_snapshot_lookup. by destruct (scripts !! n).
Qed.

(** ** Subscribing and unsubscribing *)

(** X16.  The [finally] block of [ws_logs] removes the queue from the
    subscriber set of its name and leaves the other subscribers in; lines
    published for the name afterwards no longer reach the queue; and
    running the block again changes nothing. *)
Theorem unsubscribe_stops_delivery (name : string) (q : qid) (w : world)
    (line : str) :
  let w' := ws_unsubscribe name q w in
  snapshot_subscribers name w' = snapshot_subscribers name w ∖ {[q]}
  ∧ queues (_broadcast_line name line w') !! q = queues w !! q
  ∧ ws_unsubscribe name q w' = w'.
Proof.
  intros w'.
  destruct (ws_unsubscribe_subscribers name q w) as [Hsubs Hqueues].
  fold w' in Hsubs, Hqueues.
  assert (Hout : q ∉ snapshot_subscribers name w').
  { rewrite Hsubs. intros Hin. apply elem_of_difference in Hin as [_ Hn].
    apply Hn. by apply elem_of_singleton. }
  split_and!.
  - done.
  - simpl. rewrite deliver_lookup, Hqueues.
    by destruct (decide (q ∈ snapshot_subscribers name w')).
  - by apply ws_unsubscribe_absent.
Qed.

(** X17.  Attaching and detaching is a round trip on the subscriber set:
    in a state where the subscribers of the name are existing queues, the
    set after [ws_logs] has subscribed and unsubscribed is the set before,
    and the other keys of the record are as before. *)
Theorem subscribe_unsubscribe_round_trip (name : string) (w : world) :
  snapshot_subscribers name w ⊆ dom (queues w) →
  let sub := ws_subscribe name w in
  let w' := ws_unsubscribe name sub.1.1 sub.2 in
  snapshot_subscribers name w' = snapshot_subscribers name w
  ∧ field status name w' = field status name w
  ∧ field output name w' = field output name w
  ∧ field should_stop name w' = field should_stop name w
  ∧ (∀ n, n ≠ name → processes w' !! n = processes w !! n).
Proof.
  intros Hwf sub w'.
  assert (Hfresh : sub.1.1 ∉ snapshot_subscribers name w).
  { intros Hin. apply Hwf in Hin. by apply is_fresh in Hin. }
  destruct (ws_unsubscribe_subscribers name sub.1.1 sub.2) as [Hsubs _].
  fold w' in Hsubs.
  assert (Hsub2 : processes sub.2 !! name
                  = Some (set_subscribers
                            ({[sub.1.1]} ∪ snapshot_subscribers name w)
                            (get_record name w))).
  { unfold sub; simpl. by rewrite lookup_insert_eq. }
  assert (Hw' : w' = with_processes
                       (insert name
                          (set_subscribers
                             (({[sub.1.1]} ∪ snapshot_subscribers name w)
                                ∖ {[sub.1.1]})
                             (set_subscribers
                                ({[sub.1.1]} ∪ snapshot_subscribers name w)
                                (get_record name w)))) sub.2).
  { unfold w', ws_unsubscribe. rewrite Hsub2. simpl.
    rewrite bool_decide_eq_true_2; [done|].
    by apply elem_of_union_l, elem_of_singleton. }
  split_and!.
  - rewrite Hsubs. unfold snapshot_subscribers at 1, get_record.
    rewrite Hsub2. simpl. rewrite difference_union_distr_l_L.
    rewrite difference_diag_L, (left_id_L ∅ (∪)).
    apply difference_disjoint_L. by apply disjoint_singleton_r.
  - rewrite Hw'. by rewrite field_store_eq.
  - rewrite Hw'. by rewrite field_store_eq.
  - rewrite Hw'. by rewrite field_store_eq.
  - intros n Hne. rewrite Hw'. simpl. by rewrite !lookup_insert_ne.
Qed.

Lemma subscribe_unsubscribe_round_trip_witness :
  let sub := ws_subscribe "job" running_world in
  snapshot_subscribers "job" (ws_unsubscribe "job" sub.1.1 sub.2)
  = snapshot_subscribers "job" running_world.
Proof.
  intros sub.
  destruct (subscribe_unsubscribe_round_trip "job" running_world)
    as (Hsubs & _); [by vm_compute|].
  exact Hsubs.
Defined.

(** X14.  As it is written, [ws_logs] serves no line.  With nothing else
    running in between, the handler registers its queue and sends the
    greeting (the last 2000 characters of the stored output, nothing when
    that is empty); the first turn of its pump raises [AttributeError],
    which [except WebSocketDisconnect] does not catch, and the [finally]
    block takes the queue out of the subscriber set again.  So at most one
    message went down the socket, the queue is no longer a subscriber, the
    other subscribers are as they were, nothing outside the registry
    happened, and lines published afterwards leave the queue empty. *)
Theorem ws_logs_serves_no_line (name : string) (w : world) (line : str) :
  let r := ws_logs name w in
  let q := fresh (dom (queues w)) in
  r.1.1 = AttributeError "loop"
  ∧ r.1.2
    = (let tail := slice_from (-2000) (default [] (field output name w)) in
       if decide (tail = []) then [] else [tail])
  ∧ (length (r.1.2) ≤ 1)%nat
  ∧ (q ∉ dom (queues w))
  ∧ default ∅ (field subscribers name r.2)
    = default ∅ (field subscribers name w) ∖ {[q]}
  ∧ effects r.2 = effects w
  ∧ queues (_broadcast_line name line r.2) !! q = Some (mkQueue 1000 []).
Proof.
  intros r q.
  destruct (ws_unsubscribe_subscribers name q (ws_subscribe name w).2)
    as [Hsubs Hqueues].
  change (ws_unsubscribe name q (ws_subscribe name w).2) with r.2
    in Hsubs, Hqueues.
  assert (Hsub : snapshot_subscribers name (ws_subscribe name w).2
                 = {[q]} ∪ snapshot_subscribers name w).
  { unfold snapshot_subscribers, get_record; simpl.
    by rewrite lookup_insert_eq. }
  assert (Hout : q ∉ snapshot_subscribers name r.2).
  { rewrite Hsubs. intros Hin. apply elem_of_difference in Hin as [_ Hn].
    apply Hn. by apply elem_of_singleton. }
  split_and!.
  - done.
  - unfold r, ws_logs, ws_greeting; simpl.
    by destruct (slice_from _ _).
  - unfold r, ws_logs, ws_greeting; simpl.
    destruct (slice_from _ _); simpl; lia.
  - apply is_fresh.
  - change (snapshot_subscribers name r.2
            = snapshot_subscribers name w ∖ {[q]}).
    rewrite Hsubs, Hsub, difference_union_distr_l_L.
    by rewrite difference_diag_L, (left_id_L ∅ (∪)).
  - unfold r, ws_logs, ws_unsubscribe; simpl.
    rewrite lookup_insert_eq; simpl. by case_bool_decide.
  - change (queues (_broadcast_line name line r.2))
      with (deliver line (snapshot_subscribers name r.2) (queues r.2)).
    rewrite deliver_lookup, Hqueues.
    destruct (decide (q ∈ snapshot_subscribers name r.2)); [done|].
    simpl. by rewrite lookup_insert_eq.
Qed.

(** ** Continuity of the stored output *)

#[global] Instance kept_once_set_preorder {A} : PreOrder (@kept_once_set A).
Proof.
  split; unfold kept_once_set; [by intros ?|].
  intros x y z Hxy Hyz Hx. rewrite <- (Hxy Hx). apply Hyz.
  by rewrite (Hxy Hx).
Qed.

Lemma record_launch_keeps_output now proc :
  respects output kept_once_set (record_launch now proc).
Proof.
  intros p [out Hout]. unfold record_launch; simpl. by rewrite Hout.
Qed.

(** A step of the loop that reads no line leaves a stored output alone. *)
Lemma monitor_step_keeps_output name cmd pol o at_ w at' w' n :
  (∀ line, o ≠ StdoutLine line) →
  monitor_step name cmd pol o at_ w = Some (at', w') →
  kept_once_set (field output n w) (field output n w').
Proof.
  intros Hline Hstep.
  assert (Hstatus : ∀ v, respects output kept_once_set (set_status v))
    by (by intros v p).
  assert (Hcode : ∀ v, respects output kept_once_set (set_returncode v))
    by (by intros v p).
  pose proof record_launch_keeps_output as Hlaunch.
  destruct at_ as [|[]| | | | | |? []| | | |]; destruct o; simpl in Hstep;
    try discriminate Hstep; simplify_eq;
    try (by intros _);
    try (by destruct (Hline line));
    try (eapply (then_respects output kept_once_set); [|exact Hstep];
         intros _; auto).
  - destruct (read_should_stop name w); simplify_eq; by intros _.
  - destruct (read_should_stop name w); simplify_eq; by intros _.
  - assert (Hw : w' = (apply_policy name pol code w).2)
      by (by rewrite Hstep).
    rewrite Hw. clear Hstep Hw. unfold apply_policy.
    case_bool_decide.
    + destruct (store name (set_status "error") w) as [w1|] eqn:Hs;
        [|by intros _].
      assert (kept_once_set (field output n w) (field output n w1))
        by (eapply (store_respects output kept_once_set); [|exact Hs]; auto).
      destruct (restarts_on_failure pol); [done|]. by case_bool_decide.
    + destruct (store name (set_status "stopped") w) as [w1|] eqn:Hs;
        [|by intros _].
      assert (kept_once_set (field output n w) (field output n w1))
        by (eapply (store_respects output kept_once_set); [|exact Hs]; auto).
      by case_bool_decide.
Qed.

Lemma exec_keeps_output scripts a s n :
  a ≠ AStart n →
  is_line_step a = false →
  kept_once_set (field output n (sys_world s))
                (field output n (sys_world (exec scripts a s))).
Proof.
  intros Hstart Hline.
  destruct a as [|name|name alive timely|name|name|q|name q|t o];
    try (apply (exec_respects output kept_once_set); simpl;
         first [done|by intros _ p|by intros _ v p]).
  - apply (exec_respects output kept_once_set). simpl.
    intros ->. by destruct Hstart.
  - simpl. unfold step_thread.
    destruct (sys_threads s !! t) as [th|]; [|by intros _].
    destruct (monitor_step _ _ _ _ _ _) as [[at' w']|] eqn:Hstep;
      [|by intros _].
    eapply monitor_step_keeps_output; [|exact Hstep].
    intros line ->. discriminate Hline.
Qed.

(** X18.  The stored output of a name is changed by two things only: a loop
    reading a line, and a start of that name (which empties it).  Through
    any sequence of other actions (exits, status changes, pauses, automatic
    relaunches, stops, subscriptions, [index]) an output that is present
    stays exactly as it is, so the history carries over policy-driven
    restarts. *)
Theorem output_kept_across_restarts (scripts : gmap string script_meta)
    (acts : list action) (s : system) (n : string) :
  Forall (λ a, a ≠ AStart n ∧ is_line_step a = false) acts →
  is_Some (field output n (sys_world s)) →
  field output n (sys_world (exec_all scripts acts s))
  = field output n (sys_world s).
Proof.
  intros Hacts. revert s.
  induction Hacts as [|a acts [Hstart Hline] _ IH]; intros s Hout; [done|].
  simpl. pose proof (exec_keeps_output scripts a s n Hstart Hline Hout) as Ha.
  rewrite <- Ha. apply IH. by rewrite Ha.
Qed.

Lemma output_kept_across_restarts_witness :
  let s := mkSystem long_output_world
                    [mkThread "job" job_cmd "always" (L81 1%positive)] in
  let acts :=
    [AStep 0%nat (StdoutEof 1); AStep 0%nat Tau; AStep 0%nat Tau;
     AStep 0%nat Tau; AStep 0%nat Tau;
     AStep 0%nat (PopenOk 200 2%positive); AStep 0%nat Tau] in
  field output "job" (sys_world (exec_all (job_scripts "always") acts s))
  = Some (replicate 3000 65%N).
Proof.
  intros s acts.
  rewrite (output_kept_across_restarts (job_scripts "always") acts s "job").
  - reflexivity.
  - repeat constructor; discriminate.
  - vm_compute. eauto.
Defined.

(** ** Whole cycles *)

(** Streaming [lines] through the loop changes the output of the record
    and nothing else in it, and leaves the loop at line 81. *)
Lemma streaming_runs name cmd pol proc lines rest w p out :
  processes w !! name = Some p →
  output p = Some out →
  ∃ w',
    run_monitor name cmd pol (stream_obs lines ++ rest) (L81 proc) w
    = run_monitor name cmd pol rest (L81 proc) w'
    ∧ processes w' !! name = Some (set_output (append_lines out lines) p)
    ∧ effects w' = effects w.
Proof.
  revert w p out. induction lines as [|l ls IH]; intros w p out Hp Hout.
  - exists w. split_and!; [done| |done].
    rewrite Hp. f_equal. destruct p; simpl in *. by subst.
  - set (p1 := set_output (append_output out l) p).
    set (w1 := with_processes (insert name p1) w).
    set (w2 := mkWorld (processes w1)
                       (deliver l (snapshot_subscribers name w1) (queues w1))
                       (effects w1)).
    destruct (IH w2 p1 (append_output out l)) as (w' & Hrun & Hrec & Heff).
    { unfold w2, w1; simpl. by rewrite lookup_insert_eq. }
    { done. }
    exists w'. split_and!; [|done|done].
    change (stream_obs (l :: ls) ++ rest)
      with (StdoutLine l :: Tau :: Tau :: stream_obs ls ++ rest).
    cbn [run_monitor monitor_step]. unfold record_line. rewrite Hp, Hout.
    cbn [then_ run_monitor monitor_step]. exact Hrun.
Qed.

(** One child from launch to decision, on a record whose stop flag is
    clear. *)
Lemma cycle_runs name cmd pol now proc lines code rest w p :
  processes w !! name = Some p →
  default false (should_stop p) = false →
  let at' := if bool_decide (code ≠ 0) then
               if restarts_on_failure pol then L103 else Returned
             else if bool_decide (pol = "always"%string) then L109
                  else Returned in
  ∃ w' p',
    run_monitor name cmd pol (cycle now proc lines code ++ rest) L61 w
    = run_monitor name cmd pol rest at' w'
    ∧ processes w' !! name = Some p'
    ∧ effects w' = effects w ++ [Popen cmd proc]
    ∧ status p'
      = Some (if bool_decide (code ≠ 0) then "error" else "stopped")%string
    ∧ returncode p' = Some code
    ∧ should_stop p' = should_stop p
    ∧ output p' = Some (append_lines (default [] (output p)) lines).
Proof.
  intros Hp Hflag at'. unfold cycle. rewrite <- !app_assoc.
  cbn [app run_monitor monitor_step]. unfold read_should_stop.
  rewrite Hp, Hflag. cbn [run_monitor monitor_step].
  unfold store at 1. cbn [emit processes]. rewrite Hp.
  cbn [then_].
  set (p1 := record_launch now proc p).
  set (w1 := with_processes (insert name p1) _).
  assert (Hout1 : output p1 = Some (default [] (output p))).
  { unfold p1, record_launch. simpl.
    destruct (output p) eqn:Hout; simpl; by rewrite ?Hout. }
  destruct (streaming_runs name cmd pol proc lines
              (StdoutEof code :: Tau :: Tau :: rest) w1 p1 _
              (lookup_insert_eq _ _ _) Hout1)
    as (w2 & Hrun & Hp2 & Heff2).
  rewrite Hrun. cbn [run_monitor monitor_step].
  rewrite (store_Some _ _ _ _ Hp2). cbn [then_ run_monitor monitor_step].
  set (p2 := set_output _ p1) in *.
  unfold read_should_stop. cbn [with_processes processes].
  rewrite lookup_insert_eq.
  assert (Hflag2 : should_stop (set_returncode code p2) = should_stop p).
  { unfold p2, p1. simpl. by rewrite record_launch_keeps. }
  rewrite Hflag2, Hflag. cbn [run_monitor monitor_step].
  erewrite apply_policy_Some;
    [|cbn [with_processes processes]; by rewrite lookup_insert_eq].
  unfold at'. case_bool_decide.
  - eexists _, _. split; [reflexivity|]. simpl.
    rewrite lookup_insert_eq. split_and!; try done; by rewrite Heff2.
  - eexists _, _. split; [reflexivity|]. simpl.
    rewrite lookup_insert_eq. split_and!; try done; by rewrite Heff2.
Qed.

(** A series of failing children under a restarting policy, followed by
    whatever comes next. *)
Lemma crash_loop_runs name cmd pol (children : list child) rest w p :
  processes w !! name = Some p →
  default false (should_stop p) = false →
  restarts_on_failure pol = true →
  Forall (λ c : child, c.2 ≠ 0) children →
  ∃ w' p',
    run_monitor name cmd pol (crash_loop children ++ rest) L61 w
    = run_monitor name cmd pol rest L61 w'
    ∧ processes w' !! name = Some p'
    ∧ effects w' = effects w ++ crash_loop_effects cmd children
    ∧ status p' = (if children is [] then status p else Some "error"%string)
    ∧ returncode p'
      = from_option (λ c : child, Some c.2) (returncode p) (last children)
    ∧ should_stop p' = should_stop p
    ∧ output p'
      = (if children is [] then output p
         else Some (append_lines (default [] (output p))
                                 (crash_loop_lines children))).
Proof.
  intros Hp Hflag Hpol Hcodes. revert w p Hp Hflag.
  induction Hcodes as [|[[[now proc] lines] code] cs Hcode _ IH];
    intros w p Hp Hflag.
  - exists w, p. simpl. by rewrite app_nil_r.
  - simpl in Hcode.
    change (crash_loop ((now, proc, lines, code) :: cs))
      with ((cycle now proc lines code ++ [Tau]) ++ crash_loop cs).
    rewrite <- !app_assoc.
    destruct (cycle_runs name cmd pol now proc lines code
                ([Tau] ++ crash_loop cs ++ rest) w p Hp Hflag)
      as (w1 & p1 & Hrun1 & Hp1 & Heff1 & Hst1 & Hrc1 & Hss1 & Hout1).
    rewrite Hrun1. rewrite bool_decide_eq_true_2 by done. rewrite Hpol.
    cbn [app run_monitor monitor_step].
    destruct (IH (emit (Sleep 2) w1) p1)
      as (w' & p' & Hrun & Hp' & Heff & Hst & Hrc & Hss & Hout).
    { done. }
    { by rewrite Hss1. }
    exists w', p'. split_and!; [done|done| | | | |].
    + rewrite Heff. simpl. rewrite Heff1. by rewrite <- !app_assoc.
    + rewrite Hst, Hst1. rewrite bool_decide_eq_true_2 by done.
      by destruct cs.
    + rewrite Hrc, Hrc1, last_cons. by destruct (last cs).
    + by rewrite Hss.
    + rewrite Hout, Hout1.
      change (crash_loop_lines ((now, proc, lines, code) :: cs))
        with (lines ++ crash_loop_lines cs).
      destruct cs; [by rewrite app_nil_r|].
      by rewrite append_lines_app.
Qed.

(** X19.  Under a policy that restarts on failure ([on-failure] or
    [always]), with no stop requested and no handler writing the record in
    between, a series of children that each exit with a nonzero code,
    whatever they write, is run one after the other without end: each is launched, its lines are stored, its exit stores
    [error] and its code, and a pause of two seconds precedes the next
    launch.  After any number of them the loop is back at the top, having
    created exactly one process and slept exactly once per child, in that
    order, and the stored output is the tail of everything the children
    wrote, one after the other. *)
Theorem crash_loop_restarts (name : string) (cmd : list string) (pol : string)
    (children : list child) (w : world) (p : pinfo) :
  processes w !! name = Some p →
  default false (should_stop p) = false →
  restarts_on_failure pol = true →
  Forall (λ c : child, c.2 ≠ 0) children →
  let r := run_monitor name cmd pol (crash_loop children) L61 w in
  r.1 = L61
  ∧ effects r.2 = effects w ++ crash_loop_effects cmd children
  ∧ field status name r.2
    = (if children is [] then status p else Some "error"%string)
  ∧ field returncode name r.2
    = from_option (λ c : child, Some c.2) (returncode p) (last children)
  ∧ field should_stop name r.2 = should_stop p
  ∧ field output name r.2
    = (if children is [] then output p
       else Some (append_lines (default [] (output p))
                               (crash_loop_lines children))).
Proof.
  intros Hp Hflag Hpol Hcodes r.
  destruct (crash_loop_runs name cmd pol children [] w p Hp Hflag Hpol Hcodes)
    as (w' & p' & Hrun & Hp' & Heff & Hst & Hrc & Hss & Hout).
  rewrite app_nil_r in Hrun. unfold r. rewrite Hrun. simpl.
  unfold field. rewrite (get_record_Some _ _ _ Hp'). by split_and!.
Qed.

Lemma crash_loop_restarts_witness :
  let children : list child :=
    [(100, 1%positive, [line_A; line_A], 1); (103, 2%positive, [], 1);
     (106, 3%positive, [line_A], 2)] in
  let r := run_monitor "job" job_cmd "on-failure" (crash_loop children) L61
                       (job_world "on-failure") in
  r.1 = L61
  ∧ effects r.2
    = [Popen job_cmd 1%positive; Sleep 2; Popen job_cmd 2%positive; Sleep 2;
       Popen job_cmd 3%positive; Sleep 2]
  ∧ field output "job" r.2 = Some (line_A ++ line_A ++ line_A).
Proof.
  intros children r.
  destruct (crash_loop_restarts "job" job_cmd "on-failure" children
              (job_world "on-failure")
              (initial_record (job_meta "on-failure")))
    as (Hpc & Heff & _ & _ & _ & Hout);
    [reflexivity|reflexivity|reflexivity|repeat constructor; discriminate|].
  split; [exact Hpc|]. split; [exact Heff|].
  etrans; [exact Hout|]. by vm_compute.
Defined.

(** Under [always], a step from a point that is not about to return does
    not lead to one that is, as long as the stop flag is clear. *)
Lemma step_never_returns name cmd o at_ w at' w' p :
  processes w !! name = Some p →
  default false (should_stop p) = false →
  returning at_ = false →
  monitor_step name cmd "always" o at_ w = Some (at', w') →
  returning at' = false
  ∧ ∃ p', processes w' !! name = Some p'
          ∧ default false (should_stop p') = false.
Proof.
  intros Hp Hflag Hat Hstep.
  destruct at_ as [|[]| | | | | |? []| | | |]; try discriminate Hat;
    destruct o; simpl in Hstep; try discriminate Hstep;
    unfold read_should_stop, then_, store, record_line, apply_policy, store
      in Hstep;
    rewrite ?Hp, ?Hflag in Hstep; simpl in Hstep;
    repeat case_match; simplify_eq; simpl;
    rewrite ?lookup_insert_eq;
    (split; [done|]); eexists; (split; [done|]); simpl;
    by rewrite ?record_launch_keeps.
Qed.

(** X20.  Under the policy [always], a loop left to itself never returns:
    as long as no stop has been requested, whatever its children write and
    however they exit, the loop is never at its end (it can only be ended
    by an exception). *)
Theorem always_never_returns (name : string) (cmd : list string)
    (os : list obs) (at_ : pc) (w : world) (p : pinfo) :
  processes w !! name = Some p →
  default false (should_stop p) = false →
  returning at_ = false →
  (run_monitor name cmd "always" os at_ w).1 ≠ Returned.
Proof.
  revert at_ w p. induction os as [|o os IH]; intros at_ w p Hp Hflag Hat.
  - simpl. by intros ->.
  - simpl.
    destruct (monitor_step name cmd "always" o at_ w) as [[at' w']|] eqn:Hs.
    + destruct (step_never_returns _ _ _ _ _ _ _ _ Hp Hflag Hat Hs)
        as (Hat' & p' & Hp' & Hflag').
      by eapply IH.
    + simpl. by intros ->.
Qed.

Lemma always_never_returns_witness :
  (run_monitor "job" job_cmd "always"
               (cycle 100 1%positive [line_A] 0 ++ [Tau]
                ++ cycle 103 2%positive [] 1)
               L61 (job_world "always")).1 ≠ Returned.
Proof.
  apply (always_never_returns "job" job_cmd _ L61 (job_world "always")
           (initial_record (job_meta "always")));
    reflexivity.
Defined.

(** X21.  Under [on-failure], with no stop requested and no handler
    writing the record in between, supervision ends at the first clean exit:
    after any number of children that failed and were restarted, a child
    that exits with code 0 makes the loop return, with status [stopped] and
    exit code 0 stored, no pause after it and no further process, whatever
    the children wrote; the stored output is the tail of all they wrote. *)
Theorem on_failure_stops_at_clean_exit (name : string) (cmd : list string)
    (children : list child) (now : timestamp) (proc : handle)
    (lines : list str) (w : world) (p : pinfo) :
  processes w !! name = Some p →
  default false (should_stop p) = false →
  Forall (λ c : child, c.2 ≠ 0) children →
  let r := run_monitor name cmd "on-failure"
                       (crash_loop children ++ cycle now proc lines 0) L61 w in
  r.1 = Returned
  ∧ effects r.2
    = effects w ++ crash_loop_effects cmd children ++ [Popen cmd proc]
  ∧ field status name r.2 = Some "stopped"%string
  ∧ field returncode name r.2 = Some 0
  ∧ field output name r.2
    = Some (append_lines (default [] (output p))
                         (crash_loop_lines children ++ lines)).
Proof.
  intros Hp Hflag Hcodes r.
  destruct (crash_loop_runs name cmd "on-failure" children
              (cycle now proc lines 0) w p Hp Hflag eq_refl Hcodes)
    as (w' & p' & Hrun & Hp' & Heff & _ & _ & Hss & Hout).
  unfold r. rewrite Hrun.
  rewrite <- (app_nil_r (cycle now proc lines 0)).
  destruct (cycle_runs name cmd "on-failure" now proc lines 0 [] w' p' Hp')
    as (w2 & p2 & Hrun2 & Hp2 & Heff2 & Hst2 & Hrc2 & _ & Hout2);
    [by rewrite Hss|].
  rewrite Hrun2. simpl. unfold field. rewrite (get_record_Some _ _ _ Hp2).
  split_and!; [done| |done|done|].
  - by rewrite Heff2, Heff, <- app_assoc.
  - rewrite Hout2, Hout. destruct children; [done|].
    by rewrite append_lines_app.
Qed.

Lemma on_failure_stops_at_clean_exit_witness :
  let r := run_monitor "job" job_cmd "on-failure"
             (crash_loop [(100, 1%positive, [line_A], 1)]
              ++ cycle 103 2%positive [line_A; line_A] 0)
             L61 (job_world "on-failure") in
  r.1 = Returned
  ∧ field status "job" r.2 = Some "stopped"%string
  ∧ field output "job" r.2 = Some (line_A ++ line_A ++ line_A).
Proof.
  intros r.
  destruct (on_failure_stops_at_clean_exit "job" job_cmd
              [(100, 1%positive, [line_A], 1)] 103 2%positive
              [line_A; line_A] (job_world "on-failure")
              (initial_record (job_meta "on-failure")))
    as (Hpc & _ & Hst & _ & Hout);
    [reflexivity|reflexivity|repeat constructor; discriminate|].
  split; [exact Hpc|]. split; [exact Hst|].
  etrans; [exact Hout|]. by vm_compute.
Defined.

(** X22.  A stop request does not cancel a launch that is already under
    way: a loop that read the flag as clear at its first checkpoint and is
    stopped before it creates its child still creates it.  The stop finds no
    live process to signal on that account, answers with status [stopped],
    and the child that starts afterwards is recorded as [running] with the
    stop flag set; nothing terminates it. *)
Theorem stop_misses_pending_launch (name : string) (cmd : list string)
    (pol : string) (timely : bool) (now : timestamp) (h : handle)
    (w : world) (p : pinfo) :
  processes w !! name = Some p →
  let stopped := (stop_script name false timely w).2 in
  let r := run_monitor name cmd pol [PopenOk now h; Tau] (L63 false) stopped in
  field status name stopped = Some "stopped"%string
  ∧ r.1 = L81 h
  ∧ effects r.2 = effects w ++ [Popen cmd h]
  ∧ field status name r.2 = Some "running"%string
  ∧ field process name r.2 = Some h
  ∧ field should_stop name r.2 = Some true.
Proof.
  intros Hp stopped r.
  destruct (stop_script_spec name false timely w p Hp)
    as (_ & Hprocs & _ & Heff).
  fold stopped in Hprocs, Heff.
  assert (Hp1 : processes stopped !! name
                = Some (set_status "stopped" (set_should_stop true p)))
    by (by rewrite Hprocs, lookup_insert_eq).
  split; [unfold field; by rewrite (get_record_Some _ _ _ Hp1)|].
  unfold r. cbn [run_monitor monitor_step]. unfold store; simpl.
  rewrite Hp1. simpl. split_and!.
  - done.
  - rewrite Heff. by destruct (process p); rewrite app_nil_r.
  - unfold field, get_record; simpl. rewrite lookup_insert_eq.
    apply record_launch_status.
  - unfold field, get_record; simpl. rewrite lookup_insert_eq.
    apply record_launch_process.
  - unfold field, get_record; simpl. rewrite lookup_insert_eq. simpl.
    by rewrite record_launch_keeps.
Qed.

Lemma stop_misses_pending_launch_witness :
  let stopped := (stop_script "job" false true (job_world "never")).2 in
  let r := run_monitor "job" job_cmd "never" [PopenOk 100 1%positive; Tau]
                       (L63 false) stopped in
  field status "job" r.2 = Some "running"%string
  ∧ field should_stop "job" r.2 = Some true.
Proof.
  intros stopped r.
  destruct (stop_misses_pending_launch "job" job_cmd "never" true 100
              1%positive (job_world "never")
              (initial_record (job_meta "never")))
    as (_ & _ & _ & Hst & _ & Hss); [reflexivity|].
  split; [exact Hst|exact Hss].
Defined.

(** ** Configuration and pages *)

(** X23.  A script that has just been added can be started under the file
    name of its path: unless its status is [running], the start does not
    answer 404, and the loop it starts runs [python3] on the path given,
    with the arguments split (none for an empty argument string), under the
    policy given, whatever entry the name had before. *)
Theorem added_script_can_be_started (basename : string → string)
    (split : string → list string) (path args pol : string)
    (scripts : gmap string script_meta) (s : system) :
  let name := basename path in
  let scripts' := add_script basename split path args pol scripts in
  field status name (sys_world s) ≠ Some "running"%string →
  (start_script scripts' name s).1
  = Return (RedirectResponse ("/script/" +:+ name) 303)
  ∧ sys_threads (start_script scripts' name s).2
    = sys_threads s
      ++ [mkThread name
            ("python3"%string :: path
               :: (if bool_decide (args = ""%string) then [] else split args))
            pol L61]
  ∧ field policy name (sys_world (start_script scripts' name s).2) = Some pol.
Proof.
  intros name scripts' Hst.
  assert (Hm : scripts' !! name
               = Some (mkMeta (Some path)
                         (Some (if bool_decide (args = ""%string)
                                then [] else split args))
                         (Some pol)))
    by apply lookup_insert_eq.
  split.
  - unfold start_script. rewrite Hm. simpl.
    rewrite bool_decide_eq_false_2 by exact Hst.
    unfold store; simpl. by rewrite lookup_insert_eq.
  - rewrite (start_script_spawn scripts' name s _ path Hm eq_refl Hst).
    simpl. split; [done|].
    unfold field, get_record; simpl. by rewrite lookup_insert_eq.
Qed.

Lemma added_script_can_be_started_witness :
  let scripts' := add_script (λ _, "job.py"%string) (λ a, [a])
                             "/opt/job.py" "" "always" ∅ in
  sys_threads (start_script scripts' "job.py" initial_system).2
  = [mkThread "job.py" ["python3"; "/opt/job.py"]%string "always" L61].
Proof.
  intros scripts'.
  destruct (added_script_can_be_started (λ _, "job.py"%string) (λ a, [a])
              "/opt/job.py" "" "always" ∅ initial_system)
    as (_ & Hths & _); [by vm_compute|].
  exact Hths.
Defined.

(** X24.  For a configured name, the detail page shows the same text a new
    subscriber is sent on attaching: the last 2000 characters of the stored
    output (all of it when shorter, nothing when there is none), together
    with the stored status, or [stopped] when there is none. *)
Theorem detail_shows_subscriber_tail (scripts : gmap string script_meta)
    (name : string) (now : timestamp) (w : world) (m : script_meta) :
  scripts !! name = Some m →
  let stored := default [] (field output name w) in
  ∃ rt,
    script_detail scripts name now w
    = TemplateResponse "detail.html" (DetailCtx name rt)
    ∧ r_output rt = (ws_subscribe name w).1.2
    ∧ Z.of_nat (length (r_output rt)) = Z.min (Z.of_nat (length stored)) 2000
    ∧ r_output rt `suffix_of` stored
    ∧ r_status rt = default "stopped"%string (field status name w)
    ∧ r_returncode rt = field returncode name w.
Proof.
  intros Hm stored. unfold script_detail. rewrite Hm.
  eexists. split; [reflexivity|]. simpl. split_and!; try done.
  - by apply (slice_from_neg_length _ 2000).
  - apply slice_from_neg_suffix.
Qed.

Lemma detail_shows_subscriber_tail_witness :
  ∃ rt,
    script_detail (job_scripts "always") "job" 0 long_output_world
    = TemplateResponse "detail.html" (DetailCtx "job" rt)
    ∧ Z.of_nat (length (r_output rt)) = 2000.
Proof.
  destruct (detail_shows_subscriber_tail (job_scripts "always") "job" 0
              long_output_world (job_meta "always"))
    as (rt & Hresp & _ & Hlen & _); [reflexivity|].
  exists rt. split; [exact Hresp|]. rewrite Hlen. by vm_compute.
Defined.
